(** * Selection model: the click state machine of the [selectionModel] directive

    A shallow embedding of [src/scripts/services/selection-model-options.js]
    (the [selectionModel] directive: [indexOfTrackBy], [isSelected],
    [selectItem], [deselectAllItemsExcept], [selectItemsBetween],
    [handleClick] and the watcher on the selected attribute), followed by the
    properties of the selection sequence and of the anchor stack.

    Conventions of the embedding.
    - An item is opaque; [trackBy item] stands for [item[trackBy]], compared
      with [===].  Track-by values have decidable equality (they are
      identifiers: numbers other than [NaN], strings).
    - A JavaScript value that may be [undefined] is an [option]; an array that
      may hold [undefined] is a [list (option Item)].
    - JavaScript exceptions do not roll the heap back: a computation maps a
      world to a world and a completion, [Normal v] or [Throw e].
    - [console.log], the CSS class, the checkbox visual and the per-item
      selected attribute are projections of the selection sequence; they are
      written by [updateDom] and [updateSelectedAttributeValue] and never read
      by the click handler, and are not part of the world. *)

From Stdlib Require Import ZArith String Ascii.
From stdpp Require Import base decidable option list strings gmap.

Local Open Scope string_scope.
Local Open Scope Z_scope.
Local Open Scope list_scope.

(** ** Completions and the world *)

Inductive Exn : Type :=
| TypeError.

Inductive Completion (A : Type) : Type :=
| Normal (a : A)
| Throw (e : Exn).

Arguments Normal {A} a.
Arguments Throw {A} e.

(** What the host's [$exceptionHandler] service does with an exception it is
    handed.  The service belongs to the host framework, not to these sources,
    and an application may replace it, so it is a parameter of the embedding:
    the framework's own implementation logs the exception and returns;
    others (that of the framework's test harness) throw it again. *)
Inductive ExceptionHandler : Type :=
| LogsTheError
| ThrowsTheErrorAgain.

(** The anchor stacks are keyed by [clickStackId], which is [null] outside of
    multi mode and a generated identifier otherwise. *)
Abbreviation GroupId := (option string).

(** ** Click events *)

(** The native event a jQuery event wraps ([event.originalEvent]). *)
Record OriginalEvent : Type := mkOriginalEvent {
  orig_selectionModelIgnore : bool;
  orig_selectionModelClickHandled : bool
}.

(** [event.target || event.srcElement]: its tag name, its [type], its [for]
    attribute and the number of [INPUT] elements below it. *)
Record Target : Type := mkTarget {
  tagName : string;
  inputType : string;
  forAttr : option string;
  nestedInputs : nat
}.

Record Event : Type := mkEvent {
  selectionModelIgnore : bool;
  selectionModelClickHandled : bool;
  originalEvent : option OriginalEvent;
  ctrlKey : bool;
  metaKey : bool;
  shiftKey : bool;
  target : Target
}.

(** Line 339. *)
Definition isIgnored (event : Event) : bool :=
  selectionModelIgnore event
  || from_option orig_selectionModelIgnore false (originalEvent event).

(** Line 346. *)
Definition isClickHandled (event : Event) : bool :=
  selectionModelClickHandled event
  || from_option orig_selectionModelClickHandled false (originalEvent event).

(** Lines 349-352. *)
Definition markClickHandled (event : Event) : Event :=
  mkEvent (selectionModelIgnore event) true
    ((fun o => mkOriginalEvent (orig_selectionModelIgnore o) true) <$> originalEvent event)
    (ctrlKey event) (metaKey event) (shiftKey event) (target event).

(** Lines 369-383: a click on a label is left to the input the label is for.
    [childInputIds] are the ids of the [INPUT] elements under the directive's
    element; an absent or empty [for] attribute is falsy. *)
Definition isLabelOfNearbyInput (childInputIds : list string) (t : Target) : bool :=
  if String.eqb "LABEL" (tagName t) then
    match forAttr t with
    | Some labelFor =>
        if String.eqb labelFor "" then Nat.ltb 0 (nestedInputs t)
        else existsb (String.eqb labelFor) childInputIds
    | None => Nat.ltb 0 (nestedInputs t)
    end
  else false.

Section SelectionModel.

Context {Item K : Type} `{EqDecision K}.

(** [trackBy item] is [item[trackBy]]. *)
Variable trackBy : Item -> K.

(** The mutable objects the directive instances of one list share:
    the array bound to [selection-model-selected-items], the stacks of the
    [selectionStack] service, and what [$exceptionHandler] was handed. *)
Record World : Type := mkWorld {
  selectedItemsList : list Item;
  stacks : gmap GroupId (list Item);
  errorLog : list Exn
}.

Definition M (A : Type) : Type := World -> World * Completion A.

Definition ret {A} (a : A) : M A := fun w => (w, Normal a).

Definition bind {A B} (m : M A) (f : A -> M B) : M B :=
  fun w =>
    match m w with
    | (w', Normal a) => f a w'
    | (w', Throw e) => (w', Throw e)
    end.

Definition lift {A} (c : Completion A) : M A := fun w => (w, c).

Notation "'do' x <- m ;; k" := (bind m (fun x => k))
  (at level 10, x name, m at level 99, k at level 200).
Notation "'run' m ;; k" := (bind m (fun _ => k))
  (at level 10, m at level 99, k at level 200).

(** [angular.forEach(array, callback)] where the callback updates the
    variables [V] of the enclosing function. *)
Fixpoint forEach {A V} (array : list A) (callback : V -> A -> M V) (vars : V) : M V :=
  match array with
  | [] => ret vars
  | item :: rest => do vars' <- callback vars item ;; forEach rest callback vars'
  end.

Definition getSelectedItemsList : M (list Item) :=
  fun w => (w, Normal (selectedItemsList w)).

Definition setSelectedItemsList (l : list Item) : M unit :=
  fun w => (mkWorld l (stacks w) (errorLog w), Normal tt).

(** ** ItemIndex *)

(** [indexOfTrackBy(array, trackByAttr, item)], lines 193-200.  Reading
    [array[i][trackByAttr]] at an [undefined] entry raises a [TypeError]. *)
Fixpoint indexOfTrackBy_from (i : Z) (array : list (option Item)) (item : Item)
  : Completion Z :=
  match array with
  | [] => Normal (-1)
  | None :: _ => Throw TypeError
  | Some x :: rest =>
      if decide (trackBy x = trackBy item) then Normal i
      else indexOfTrackBy_from (i + 1) rest item
  end.

Definition indexOfTrackBy (array : list (option Item)) (item : Item) : Completion Z :=
  indexOfTrackBy_from 0 array item.

(** ** SelectionSet *)

(** [isSelected(item)], lines 206-209. *)
Definition isSelected (item : Item) : M bool :=
  do sel <- getSelectedItemsList ;;
  do index <- lift (indexOfTrackBy (Some <$> sel) item) ;;
  ret (-1 <? index).

(** [selectItem(item)], lines 241-246. *)
Definition selectItem (item : Item) : M unit :=
  do sel <- getSelectedItemsList ;;
  do index <- lift (indexOfTrackBy (Some <$> sel) item) ;;
  if index =? -1 then setSelectedItemsList (sel ++ [item]) else ret tt.

(** The removal that the source writes inline three times (lines 282-285,
    410-413 and 457-461):
    [index = indexOfTrackBy(selectedItemsList, trackBy, item);
     if (index > -1) selectedItemsList.splice(index, 1)]. *)
Definition deselectItem (item : Item) : M unit :=
  do sel <- getSelectedItemsList ;;
  do index <- lift (indexOfTrackBy (Some <$> sel) item) ;;
  if -1 <? index then setSelectedItemsList (delete (Z.to_nat index) sel) else ret tt.

(** The [except] argument of [deselectAllItemsExcept]: "may be [undefined], a
    single item, or an array of two items" (lines 252-254).  The entries of
    the array may themselves be [undefined]: the click handler passes
    [[smItem, selectionStack.peek(clickStackId)]]. *)
Inductive Except : Type :=
| ExceptUndefined
| ExceptItem (x : Item)
| ExceptRange (a b : option Item).

(** The variables of [deselectAllItemsExcept] that its callback updates.
    [exceptArray] is the caller's array, spliced in place. *)
Record ExceptVars : Type := mkExceptVars {
  exceptArray : list (option Item);
  numItemsFound : Z;
  doSelect : bool
}.

Definition initialExceptVars (except : Except) : ExceptVars :=
  mkExceptVars
    match except with ExceptRange a b => [a; b] | _ => [] end
    0 true.

(** Lines 266-277: the part of the callback that decides [doSelect].  The
    first arm is [isRange]; the other two are [item[trackBy] ===
    except[trackBy]] for an item and for [undefined]. *)
Definition decideSelect (except : Except) (vars : ExceptVars) (item : Item)
  : Completion ExceptVars :=
  match except with
  | ExceptRange _ _ =>
      match indexOfTrackBy (exceptArray vars) item with
      | Throw e => Throw e
      | Normal ixItem =>
          if -1 <? ixItem then
            Normal (mkExceptVars (delete (Z.to_nat ixItem) (exceptArray vars))
                                 (numItemsFound vars + 1) true)
          else
            Normal (mkExceptVars (exceptArray vars) (numItemsFound vars)
                                 (1 =? numItemsFound vars))
      end
  | ExceptItem x =>
      Normal (mkExceptVars (exceptArray vars) (numItemsFound vars)
                           (bool_decide (trackBy item = trackBy x)))
  | ExceptUndefined => Throw TypeError
  end.

(** Lines 265-287: the callback of [angular.forEach(allItems, ...)]. *)
Definition deselectCallback (except : Except) (vars : ExceptVars) (item : Item)
  : M ExceptVars :=
  do vars' <- lift (decideSelect except vars item) ;;
  run (if doSelect vars' then selectItem item else deselectItem item) ;;
  ret vars'.

(** [deselectAllItemsExcept(except)], lines 255-288, with [allItems] the value
    of [getAllItems()].  The selected items are an array ([isSelected], run
    when the directive is linked, reads its [length]), so [useSelectedArray]
    holds.  The source returns nothing; the embedding returns the final
    variables so that the caller's array can be observed. *)
Definition deselectAllItemsExcept (allItems : list Item) (except : Except)
  : M ExceptVars :=
  run setSelectedItemsList [] ;;
  forEach allItems (deselectCallback except) (initialExceptVars except).

(** ** RangeResolver *)

(** [selectItemsBetween(lastItem)], lines 290-306, in the directive instance
    of [smItem], with [visibleItems] the value of [getAllVisibleItems()].
    The variables are [(foundLastItem, foundThisItem)]. *)
Definition betweenCallback (smItem lastItem : Item) (found : bool * bool) (item : Item)
  : M (bool * bool) :=
  let foundThisItem := snd found || bool_decide (trackBy item = trackBy smItem) in
  let foundLastItem := fst found || bool_decide (trackBy item = trackBy lastItem) in
  let inRange := Z.b2z foundLastItem + Z.b2z foundThisItem =? 1 in
  run (if inRange
         || bool_decide (trackBy item = trackBy smItem)
         || bool_decide (trackBy item = trackBy lastItem)
       then selectItem item else ret tt) ;;
  ret (foundLastItem, foundThisItem).

Definition selectItemsBetween (visibleItems : list Item) (smItem : Item)
    (lastItem : option Item) : M unit :=
  let lastItem := default smItem lastItem in
  run forEach visibleItems (betweenCallback smItem lastItem) (false, false) ;;
  ret tt.

(** ** SelectionStack *)

(** Modelled from the spec: the [selectionStack] service ([push], [peek]) is
    injected into the directive and its file is not part of the sources.
    [push(groupId, item)] records [item] as the most recent anchor of the
    group, creating the group's stack on first use. *)
Definition selectionStack_push (id : GroupId) (item : Item) : M unit :=
  fun w =>
    (mkWorld (selectedItemsList w)
             (<[id := item :: default [] (stacks w !! id)]> (stacks w))
             (errorLog w),
     Normal tt).

(** Modelled from the spec: [peek(groupId)] of the [selectionStack] service
    returns the most recently pushed item of the group, or [undefined] when
    nothing was ever pushed for it. *)
Definition selectionStack_peek (id : GroupId) : M (option Item) :=
  fun w => (w, Normal (stacks w !! id ≫= head)).

(** ** The host framework *)

(** [scope.$apply(fn)] is the host framework's, not a function of these
    sources: it is the point where the directive hands control to the host,
    and what happens to an exception of [fn] there is the parameter
    [handler].  The framework evaluates [fn] inside [try] and hands an
    exception to [$exceptionHandler]; the call completes normally when the
    handler returns, and throws when the handler throws the exception again.
    The click handler is registered as a DOM listener (line 433) and runs
    outside of a digest.  After [fn] the framework runs a digest, which
    notifies the watchers whose watched value has changed; the one this
    directive registers is [selectedAttributeWatcher] below, an operation of
    its own in [perform]. *)
Definition scope_apply (handler : ExceptionHandler) {A} (fn : M A) : M unit :=
  fun w =>
    match fn w with
    | (w', Normal _) => (w', Normal tt)
    | (w', Throw e) =>
        (mkWorld (selectedItemsList w') (stacks w') (errorLog w' ++ [e]),
         match handler with
         | LogsTheError => Normal tt
         | ThrowsTheErrorAgain => Throw e
         end)
    end.

(** ** ClickInterpreter *)

(** What one directive instance (one row of the list) closes over: the
    resolved options, its item, the collections its scope evaluates, and the
    ids of the inputs under its element. *)
Record Directive : Type := mkDirective {
  smType : string;
  smMode : string;
  stackId : string;
  smItem : Item;
  allItems : list Item;
  visibleItems : list Item;
  childInputIds : list string
}.

(** Line 91: [/^multi(ple)?(-additive)?$/.test(smMode)]. *)
Definition isMultiMode (d : Directive) : bool :=
  existsb (String.eqb (smMode d))
    ["multi"; "multiple"; "multi-additive"; "multiple-additive"]%string.

(** Line 92: [/^multi(ple)?-additive/.test(smMode)]. *)
Definition isModeAdditive (d : Directive) : bool :=
  String.prefix "multi-additive" (smMode d)
  || String.prefix "multiple-additive" (smMode d).

(** Lines 151-175: [null] outside of multi mode, else the identifier cached
    on the element or its parent. *)
Definition clickStackId (d : Directive) : GroupId :=
  if isMultiMode d then Some (stackId d) else None.

(** Lines 357-359. *)
Definition isCheckboxClick (d : Directive) (event : Event) : bool :=
  String.eqb "checkbox" (smType d)
  && String.eqb "INPUT" (tagName (target event))
  && String.eqb "checkbox" (inputType (target event)).

(** [handleClick(event)], lines 330-431, in a host whose
    [$exceptionHandler] is [handler].  The result is the event object as the
    handler leaves it.  [updateDom()] and [updateSelectedAttributeValue()]
    (lines 415-416) write the projections only and leave the world as it is. *)
Definition handleClickWith (handler : ExceptionHandler) (d : Directive)
    (event : Event) : M Event :=
  if isIgnored event then ret event
  else if isClickHandled event then ret event
  else
    let event := markClickHandled event in
    let isCtrlKeyDown := ctrlKey event || metaKey event || isModeAdditive d in
    let isShiftKeyDown := shiftKey event in
    if isLabelOfNearbyInput (childInputIds d) (target event) then ret event
    else if isShiftKeyDown && isMultiMode d && negb (isCheckboxClick d event) then
      run (if negb isCtrlKeyDown then
             scope_apply handler
               (do last <- selectionStack_peek (clickStackId d) ;;
                deselectAllItemsExcept (allItems d)
                  (ExceptRange (Some (smItem d)) last))
           else ret tt) ;;
      do last <- selectionStack_peek (clickStackId d) ;;
      run selectItemsBetween (visibleItems d) (smItem d) last ;;
      run scope_apply handler (ret tt) ;;
      ret event
    else if isCtrlKeyDown || isShiftKeyDown || isCheckboxClick d event then
      do selected <- isSelected (smItem d) ;;
      let isSelectedResult := negb selected in
      run (if negb (isMultiMode d) then
             run deselectAllItemsExcept (allItems d) (ExceptItem (smItem d)) ;;
             ret tt
           else ret tt) ;;
      run (if isSelectedResult then
             run selectionStack_push (clickStackId d) (smItem d) ;;
             selectItem (smItem d)
           else deselectItem (smItem d)) ;;
      run scope_apply handler (ret tt) ;;
      ret event
    else
      run deselectAllItemsExcept (allItems d) (ExceptItem (smItem d)) ;;
      run scope_apply handler (ret tt) ;;
      run selectionStack_push (clickStackId d) (smItem d) ;;
      run selectItem (smItem d) ;;
      run scope_apply handler (ret tt) ;;
      ret event.

(** [handleClick(event)] in a host that keeps the framework's own
    [$exceptionHandler]. *)
Definition handleClick (d : Directive) (event : Event) : M Event :=
  handleClickWith LogsTheError d event.

(** ** Programmatic change reconciliation *)

(** The watcher on [item[selectedAttribute]], lines 445-470.  The watched
    value is a boolean or [undefined]. *)
Definition truthy (v : option bool) : bool := default false v.

Definition selectedAttributeWatcher (d : Directive) (newVal oldVal : option bool)
  : M unit :=
  if bool_decide (newVal <> oldVal) then
    run (if negb (isMultiMode d) && truthy newVal && negb (truthy oldVal) then
           run deselectAllItemsExcept (allItems d) (ExceptItem (smItem d)) ;;
           ret tt
         else ret tt) ;;
    if truthy newVal then selectItem (smItem d) else deselectItem (smItem d)
  else ret tt.

(** ** The selection sequence as a value

    The effect of the operations above on the selection sequence, written as
    functions on lists; the properties section relates the two. *)

Definition trackByValues (l : list Item) : list K := trackBy <$> l.

(** Append unless an entry with the same track-by value is present. *)
Definition pushUnique (sel : list Item) (item : Item) : list Item :=
  if decide (trackBy item ∈ trackByValues sel) then sel else sel ++ [item].

(** Drop the first entry with the track-by value of [item], if any. *)
Fixpoint removeFirst (sel : list Item) (item : Item) : list Item :=
  match sel with
  | [] => []
  | x :: rest =>
      if decide (trackBy x = trackBy item) then rest else x :: removeFirst rest item
  end.

(** The first entry for each track-by value, in order. *)
Definition uniqueByTrackBy (l : list Item) : list Item := foldl pushUnique [] l.

(** The items from the first one with the track-by value of [item] on. *)
Fixpoint fromFirst (l : list Item) (item : Item) : list Item :=
  match l with
  | [] => []
  | x :: rest =>
      if decide (trackBy x = trackBy item) then x :: rest else fromFirst rest item
  end.

(** The entries of an endpoint pair whose track-by value no item of the
    collection has. *)
Definition isUnmatched (l : list Item) (e : option Item) : bool :=
  match e with
  | Some x => bool_decide (trackBy x ∉ trackByValues l)
  | None => true
  end.

Definition unmatched (l : list Item) (pair : list (option Item)) : list (option Item) :=
  List.filter (isUnmatched l) pair.

(** The loop of [deselectAllItemsExcept] on the selection sequence alone. *)
Fixpoint deselectLoop (except : Except) (vars : ExceptVars) (sel : list Item)
    (l : list Item) : list Item * Completion ExceptVars :=
  match l with
  | [] => (sel, Normal vars)
  | item :: rest =>
      match decideSelect except vars item with
      | Throw e => (sel, Throw e)
      | Normal vars' =>
          deselectLoop except vars'
            (if doSelect vars' then pushUnique sel item else removeFirst sel item)
            rest
      end
  end.

(** The loop of [selectItemsBetween] on the selection sequence alone. *)
Fixpoint betweenLoop (smItem lastItem : Item) (found : bool * bool)
    (sel : list Item) (l : list Item) : list Item :=
  match l with
  | [] => sel
  | item :: rest =>
      let foundThisItem := snd found || bool_decide (trackBy item = trackBy smItem) in
      let foundLastItem := fst found || bool_decide (trackBy item = trackBy lastItem) in
      betweenLoop smItem lastItem (foundLastItem, foundThisItem)
        (if (Z.b2z foundLastItem + Z.b2z foundThisItem =? 1)
            || bool_decide (trackBy item = trackBy smItem)
            || bool_decide (trackBy item = trackBy lastItem)
         then pushUnique sel item else sel)
        rest
  end.

(** The branch of [handleClick] an event takes (lines 339-399). *)
Definition isProcessed (d : Directive) (event : Event) : bool :=
  negb (isIgnored event) && negb (isClickHandled event)
  && negb (isLabelOfNearbyInput (childInputIds d) (target event)).

Definition isCtrlKeyDown (d : Directive) (event : Event) : bool :=
  ctrlKey event || metaKey event || isModeAdditive d.

Definition isRangeClick (d : Directive) (event : Event) : bool :=
  shiftKey event && isMultiMode d && negb (isCheckboxClick d event).

Definition isToggleClick (d : Directive) (event : Event) : bool :=
  negb (isRangeClick d event)
  && (isCtrlKeyDown d event || shiftKey event || isCheckboxClick d event).

(** The stacks after [push(id, item)]. *)
Definition pushed (id : GroupId) (item : Item) (st : gmap GroupId (list Item))
  : gmap GroupId (list Item) :=
  <[id := item :: default [] (st !! id)]> st.

(** A ctrl-click: a processed click with [ctrlKey] or [metaKey] and without
    [shiftKey]. *)
Definition isCtrlClick (d : Directive) (event : Event) : bool :=
  isProcessed d event && (ctrlKey event || metaKey event) && negb (shiftKey event).

(** A shift-click that replaces the selection with a range: processed, in the
    range branch, with neither [ctrlKey] nor [metaKey]. *)
Definition isShiftClick (d : Directive) (event : Event) : bool :=
  isProcessed d event && isRangeClick d event
  && negb (ctrlKey event || metaKey event).

(** The world with another selection sequence. *)
Definition withSelected (l : list Item) (w : World) : World :=
  mkWorld l (stacks w) (errorLog w).

(** The uniqueness invariant of the selection sequence. *)
Definition uniqueSelection (w : World) : Prop :=
  NoDup (trackByValues (selectedItemsList w)).

(** A computation keeps the invariant, however it completes. *)
Definition preserves {A} (m : M A) : Prop :=
  forall w, uniqueSelection w -> uniqueSelection (fst (m w)).

(** ** Sequences of operations *)

Inductive Operation : Type :=
| OpSelect (item : Item)
| OpDeselect (item : Item)
| OpDeselectAllExcept (allItems : list Item) (except : Except)
| OpSelectBetween (visibleItems : list Item) (clicked : Item) (anchor : option Item)
| OpClick (d : Directive) (event : Event)
| OpWatcher (d : Directive) (newVal oldVal : option bool).

(** An operation that throws leaves the world as it was when it threw. *)
Definition perform (op : Operation) (w : World) : World :=
  match op with
  | OpSelect item => fst (selectItem item w)
  | OpDeselect item => fst (deselectItem item w)
  | OpDeselectAllExcept allItems except => fst (deselectAllItemsExcept allItems except w)
  | OpSelectBetween visibleItems clicked anchor =>
      fst (selectItemsBetween visibleItems clicked anchor w)
  | OpClick d event => fst (handleClick d event w)
  | OpWatcher d newVal oldVal => fst (selectedAttributeWatcher d newVal oldVal w)
  end.

Definition performAll (ops : list Operation) (w : World) : World :=
  foldl (fun w op => perform op w) w ops.

End SelectionModel.

(** ** The end-to-end scenario: items [{id: n}], tracked by [id] *)

Module Scenario.

Record IdItem : Type := mkIdItem { id : Z }.

Definition fullCollection : list IdItem :=
  [mkIdItem 1; mkIdItem 2; mkIdItem 3; mkIdItem 4].

(** The row of item [n]: mode [multi], type [basic], nothing filtered. *)
Definition row (n : Z) : Directive :=
  mkDirective "basic" "multi" "stack-0" (mkIdItem n) fullCollection fullCollection [].

Definition rowTarget : Target := mkTarget "LI" "" None 0.

(** A fresh click event with the given [ctrlKey] and [shiftKey]. *)
Definition click (ctrl shift : bool) : Event :=
  mkEvent false false None ctrl false shift rowTarget.

Definition emptyWorld : World (Item := IdItem) := mkWorld [] ∅ [].

Definition clickOn (n : Z) (ctrl shift : bool) (w : World) : World :=
  fst (handleClick id (row n) (click ctrl shift) w).

Definition ids (w : World) : list Z := id <$> selectedItemsList w.

End Scenario.

(** ** Rows of the scenario in other modes, and other click targets *)

Module Rows.

Import Scenario.

(** The row of item [n] in the given mode. *)
Definition rowIn (mode : string) (n : Z) : Directive :=
  mkDirective "basic" mode "stack-0" (mkIdItem n) fullCollection fullCollection [].

(** The row of item [n] of a list of type [checkbox], whose checkbox has the
    id [cb]. *)
Definition checkboxRow (cb : string) (n : Z) : Directive :=
  mkDirective "checkbox" "multi" "stack-0" (mkIdItem n) fullCollection
    fullCollection [cb].

(** A fresh click on the label of the checkbox with id [cb]. *)
Definition labelClick (cb : string) : Event :=
  mkEvent false false None false false false (mkTarget "LABEL" "" (Some cb) 0).

(** The world after a plain click on item 2: item 2 is selected and is the
    anchor. *)
Definition anchoredAt2 : World (Item := IdItem) :=
  clickOn 2 false false emptyWorld.

End Rows.

(** * The options provider and the linking of a directive instance *)

(** ** The [selectionModelOptions] provider, lines 10-35 *)

Module OptionsProvider.

(** The [options] object: property names and their values. *)
Definition options : gmap string string :=
  list_to_map
    [("selectedAttribute", "selected"); ("trackBy", "Id");
     ("selectedClass", "selected"); ("type", "basic"); ("mode", "single")]%string.

(** [this.set(userOpts)]: [angular.extend(options, userOpts)] copies every
    property of [userOpts] over the current options. *)
Definition set (userOpts current : gmap string string) : gmap string string :=
  userOpts ∪ current.

(** [get()]: [angular.copy(options)], a copy of the current options. *)
Definition get (current : gmap string string) : gmap string string := current.

(** The options after the calls of [set] made while the module is
    configured, in order. *)
Definition configure (calls : list (gmap string string)) : gmap string string :=
  foldl (fun current userOpts => set userOpts current) options calls.

(** [scope.$eval(attrs.x) || defaultX], lines 76-116: the value of the
    attribute when it is truthy, else the provider's value.  An absent
    attribute and the empty string are falsy. *)
Definition attributeOr (attr default : option string) : option string :=
  match attr with
  | Some v => if String.eqb v "" then default else Some v
  | None => default
  end.

End OptionsProvider.

(** ** The last-click stack id, lines 151-175 *)

(** The [data-selection-model-stack-id] attribute of the directive's element
    and of its parent. *)
Record StackIdAttrs : Type := mkStackIdAttrs {
  elementStackId : option string;
  parentStackId : option string
}.

(** [if (stackId)] for the value of an attribute. *)
Definition isTruthyAttr (a : option string) : bool :=
  match a with
  | Some v => negb (String.eqb v "")
  | None => false
  end.

(** The function that computes [clickStackId], with [uuid] what
    [uuidGen.create()] returns when it is called: the id and the attributes
    it leaves. *)
Definition resolveClickStackId (multiMode : bool) (uuid : string) (dom : StackIdAttrs)
  : GroupId * StackIdAttrs :=
  if negb multiMode then (None, dom)
  else if isTruthyAttr (elementStackId dom) then (elementStackId dom, dom)
  else if isTruthyAttr (parentStackId dom) then
    (parentStackId dom, mkStackIdAttrs (parentStackId dom) (parentStackId dom))
  else (Some uuid, mkStackIdAttrs (Some uuid) (Some uuid)).

(** ** The expression of the full collection, lines 231-233 *)

(** [repeatParts[1].split(/[|=]/)[0]]: the collection expression up to its
    first [|] or [=]. *)
Definition isFilterSeparator (c : ascii) : bool :=
  Ascii.eqb c "|"%char || Ascii.eqb c "="%char.

Fixpoint stripFilters (expression : string) : string :=
  match expression with
  | EmptyString => EmptyString
  | String c rest =>
      if isFilterSeparator c then EmptyString else String c (stripFilters rest)
  end.

Fixpoint hasFilterSeparator (expression : string) : bool :=
  match expression with
  | EmptyString => false
  | String c rest => isFilterSeparator c || hasFilterSeparator rest
  end.

(** ** Clicks by their branch *)

(** The event with other modifier keys. *)
Definition withModifiers (ctrl meta shift : bool) (event : Event) : Event :=
  mkEvent (selectionModelIgnore event) (selectionModelClickHandled event)
    (originalEvent event) ctrl meta shift (target event).

Section Branches.

Context {Item : Type}.


(** A click that extends the selection by a range: shift with ctrl or meta
    (or in an additive mode), in multi mode, not on a checkbox. *)
Definition isAdditiveRangeClick (d : Directive (Item := Item)) (event : Event) : bool :=
  isProcessed d event && isRangeClick d event && isCtrlKeyDown d event.

End Branches.


(** * Properties *)

Section Properties.

Context {Item K : Type} `{EqDecision K}.
Variable trackBy : Item -> K.

Implicit Types (w : World (Item := Item)) (item x y : Item) (sel l : list Item).

(** ** ItemIndex on an array without holes *)

Lemma indexOfTrackBy_from_absent l item i :
  trackBy item ∉ trackByValues trackBy l ->
  indexOfTrackBy_from trackBy i (Some <$> l) item = Normal (-1).
Proof.
  revert i. induction l as [|x l IH]; intros i Hnot; [reflexivity|].
  unfold trackByValues in Hnot. rewrite fmap_cons, not_elem_of_cons in Hnot.
  destruct Hnot as [Hne Hnot].
  rewrite fmap_cons. cbn [indexOfTrackBy_from].
  rewrite decide_False by congruence. apply IH, Hnot.
Qed.

Lemma indexOfTrackBy_from_present l item i :
  trackBy item ∈ trackByValues trackBy l ->
  exists n : nat,
    indexOfTrackBy_from trackBy i (Some <$> l) item = Normal (i + Z.of_nat n)
    /\ delete n l = removeFirst trackBy l item.
Proof.
  revert i. induction l as [|x l IH]; intros i Hin.
  - unfold trackByValues in Hin. simpl in Hin. inversion Hin.
  - rewrite fmap_cons. cbn [indexOfTrackBy_from removeFirst].
    destruct (decide (trackBy x = trackBy item)) as [Heq|Hne].
    + exists 0%nat. split; [f_equal; lia | reflexivity].
    + unfold trackByValues in Hin. rewrite fmap_cons, elem_of_cons in Hin.
      destruct Hin as [Heq|Hin]; [congruence|].
      destruct (IH (i + 1) Hin) as (n & Hix & Hdel).
      exists (S n). split; [rewrite Hix; f_equal; lia | simpl; by rewrite Hdel].
Qed.

Lemma removeFirst_absent l item :
  trackBy item ∉ trackByValues trackBy l -> removeFirst trackBy l item = l.
Proof.
  induction l as [|x l IH]; intros Hnot; simpl; [reflexivity|].
  unfold trackByValues in Hnot. rewrite fmap_cons, not_elem_of_cons in Hnot.
  destruct Hnot as [Hne Hnot].
  rewrite decide_False by congruence. f_equal. apply IH, Hnot.
Qed.

(** ** The operations as functions on the selection sequence *)

Lemma withSelected_same w : withSelected (selectedItemsList w) w = w.
Proof. by destruct w. Qed.

Lemma isSelected_eq item w :
  isSelected trackBy item w
  = (w, Normal (bool_decide (trackBy item ∈ trackByValues trackBy (selectedItemsList w)))).
Proof.
  unfold isSelected, bind, getSelectedItemsList, lift, indexOfTrackBy, ret.
  destruct (decide (trackBy item ∈ trackByValues trackBy (selectedItemsList w))) as [Hin|Hnot].
  - destruct (indexOfTrackBy_from_present _ _ 0 Hin) as (n & -> & _).
    rewrite bool_decide_eq_true_2 by done.
    do 2 f_equal. apply Z.ltb_lt. lia.
  - rewrite indexOfTrackBy_from_absent by done.
    by rewrite bool_decide_eq_false_2.
Qed.

Lemma selectItem_eq item w :
  selectItem trackBy item w
  = (withSelected (pushUnique trackBy (selectedItemsList w) item) w, Normal tt).
Proof.
  unfold selectItem, bind, getSelectedItemsList, lift, indexOfTrackBy, pushUnique.
  destruct (decide (trackBy item ∈ trackByValues trackBy (selectedItemsList w))) as [Hin|Hnot].
  - destruct (indexOfTrackBy_from_present _ _ 0 Hin) as (n & -> & _).
    replace (0 + Z.of_nat n =? -1) with false by (symmetry; apply Z.eqb_neq; lia).
    by rewrite withSelected_same.
  - by rewrite indexOfTrackBy_from_absent.
Qed.

Lemma deselectItem_eq item w :
  deselectItem trackBy item w
  = (withSelected (removeFirst trackBy (selectedItemsList w) item) w, Normal tt).
Proof.
  unfold deselectItem, bind, getSelectedItemsList, lift, indexOfTrackBy.
  destruct (decide (trackBy item ∈ trackByValues trackBy (selectedItemsList w))) as [Hin|Hnot].
  - destruct (indexOfTrackBy_from_present _ _ 0 Hin) as (n & -> & Hdel).
    replace (-1 <? 0 + Z.of_nat n) with true by (symmetry; apply Z.ltb_lt; lia).
    unfold setSelectedItemsList, withSelected.
    replace (Z.to_nat (0 + Z.of_nat n)) with n by lia. by rewrite Hdel.
  - rewrite indexOfTrackBy_from_absent by done. simpl.
    rewrite removeFirst_absent by done. by rewrite withSelected_same.
Qed.

(** ** Facts about the selection sequence as a value *)

Lemma pushUnique_nil item : pushUnique trackBy [] item = [item].
Proof.
  unfold pushUnique, trackByValues.
  case_decide as Hin; [inversion Hin | done].
Qed.

Lemma pushUnique_cons x sel item :
  pushUnique trackBy (x :: sel) item
  = if decide (trackBy x = trackBy item) then x :: sel
    else x :: pushUnique trackBy sel item.
Proof.
  unfold pushUnique, trackByValues. rewrite fmap_cons.
  destruct (decide (trackBy x = trackBy item)) as [Heq|Hne].
  - rewrite decide_True; [done | rewrite Heq; apply list_elem_of_here].
  - destruct (decide (trackBy item ∈ trackBy <$> sel)) as [Hin|Hnot].
    + rewrite decide_True; [done | by apply list_elem_of_further].
    + rewrite decide_False; [done|].
      rewrite not_elem_of_cons. split; [congruence | done].
Qed.

Lemma pushUnique_present sel item :
  trackBy item ∈ trackByValues trackBy sel -> pushUnique trackBy sel item = sel.
Proof. intros Hin. unfold pushUnique. by rewrite decide_True. Qed.

Lemma pushUnique_absent sel item :
  trackBy item ∉ trackByValues trackBy sel ->
  pushUnique trackBy sel item = sel ++ [item].
Proof. intros Hnot. unfold pushUnique. by rewrite decide_False. Qed.

Lemma elem_of_pushUnique sel item k :
  k ∈ trackByValues trackBy (pushUnique trackBy sel item)
  <-> k ∈ trackByValues trackBy sel \/ k = trackBy item.
Proof.
  unfold pushUnique. case_decide as Hin.
  - split; [by left | intros [? | ->]; done].
  - unfold trackByValues. rewrite fmap_app, elem_of_app. simpl.
    by rewrite list_elem_of_singleton.
Qed.

Lemma pushUnique_idempotent sel item :
  pushUnique trackBy (pushUnique trackBy sel item) item
  = pushUnique trackBy sel item.
Proof. apply pushUnique_present, elem_of_pushUnique. by right. Qed.

Lemma removeFirst_pushUnique_absent sel item :
  trackBy item ∉ trackByValues trackBy sel ->
  removeFirst trackBy (pushUnique trackBy sel item) item = sel.
Proof.
  intros Hnot. rewrite pushUnique_absent by done.
  induction sel as [|x sel IH]; simpl.
  - by rewrite decide_True.
  - unfold trackByValues in Hnot. rewrite fmap_cons, not_elem_of_cons in Hnot.
    destruct Hnot as [Hne Hnot].
    rewrite decide_False by congruence. f_equal. by apply IH.
Qed.

Lemma fromFirst_cases l x :
  fromFirst trackBy l x = []
  \/ exists y rest, fromFirst trackBy l x = y :: rest /\ trackBy y = trackBy x.
Proof.
  induction l as [|z l IH]; simpl; [by left|].
  case_decide; [right; eauto | exact IH].
Qed.

Lemma fromFirst_absent l x :
  trackBy x ∉ trackByValues trackBy l -> fromFirst trackBy l x = [].
Proof.
  induction l as [|z l IH]; intros Hnot; simpl; [done|].
  unfold trackByValues in Hnot. rewrite fmap_cons, not_elem_of_cons in Hnot.
  destruct Hnot as [Hne Hnot].
  rewrite decide_False by congruence. by apply IH.
Qed.

Lemma fromFirst_present l x :
  trackBy x ∈ trackByValues trackBy l ->
  exists y rest, fromFirst trackBy l x = y :: rest /\ trackBy y = trackBy x.
Proof.
  induction l as [|z l IH]; intros Hin.
  - inversion Hin.
  - simpl. case_decide as Hz; [eauto|].
    unfold trackByValues in Hin. rewrite fmap_cons, elem_of_cons in Hin.
    destruct Hin as [Heq|Hin]; [congruence | by apply IH].
Qed.

(** ** The loops on the selection sequence *)

Lemma forEach_deselectCallback except l vars w :
  forEach l (deselectCallback trackBy except) vars w
  = (withSelected (deselectLoop trackBy except vars (selectedItemsList w) l).1 w,
     (deselectLoop trackBy except vars (selectedItemsList w) l).2).
Proof.
  revert vars w. induction l as [|item l IH]; intros vars w.
  - simpl. unfold ret. by rewrite withSelected_same.
  - cbn [forEach deselectLoop]. unfold bind at 1. unfold deselectCallback at 1.
    unfold bind at 1, lift at 1.
    destruct (decideSelect trackBy except vars item) as [vars'|e].
    + unfold bind at 1.
      destruct (doSelect vars');
        [rewrite selectItem_eq | rewrite deselectItem_eq];
        unfold ret at 1; rewrite IH; by destruct w.
    + simpl. by rewrite withSelected_same.
Qed.

Lemma deselectAllItemsExcept_eq allItems except w :
  deselectAllItemsExcept trackBy allItems except w
  = (withSelected
       (deselectLoop trackBy except (initialExceptVars except) [] allItems).1 w,
     (deselectLoop trackBy except (initialExceptVars except) [] allItems).2).
Proof.
  unfold deselectAllItemsExcept, bind, setSelectedItemsList.
  rewrite forEach_deselectCallback. by destruct w.
Qed.

Lemma forEach_betweenCallback smItem lastItem l found w :
  exists found',
    forEach l (betweenCallback trackBy smItem lastItem) found w
    = (withSelected
         (betweenLoop trackBy smItem lastItem found (selectedItemsList w) l) w,
       Normal found').
Proof.
  revert found w. induction l as [|item l IH]; intros found w.
  - exists found. simpl. unfold ret. by rewrite withSelected_same.
  - cbn [forEach betweenLoop]. unfold bind at 1. unfold betweenCallback at 1.
    cbv zeta. unfold bind at 1.
    match goal with |- context [if ?c then selectItem _ _ else _] => destruct c end.
    + rewrite selectItem_eq. unfold ret at 1.
      edestruct IH as [found' ->]. exists found'. by destruct w.
    + unfold ret at 1 2.
      edestruct IH as [found' ->]. by exists found'.
Qed.

Lemma selectItemsBetween_eq visibleItems smItem lastItem w :
  selectItemsBetween trackBy visibleItems smItem lastItem w
  = (withSelected
       (betweenLoop trackBy smItem (default smItem lastItem) (false, false)
          (selectedItemsList w) visibleItems) w,
     Normal tt).
Proof.
  unfold selectItemsBetween. cbv zeta. unfold bind.
  destruct (forEach_betweenCallback smItem (default smItem lastItem)
              visibleItems (false, false) w) as [found' ->].
  reflexivity.
Qed.

Lemma deselectLoop_item_single x y vars l :
  trackBy y = trackBy x ->
  exists v, deselectLoop trackBy (ExceptItem x) vars [y] l = ([y], Normal v).
Proof.
  intros Hy. revert vars. induction l as [|item l IH]; intros vars.
  - by exists vars.
  - cbn [deselectLoop decideSelect doSelect]. case_bool_decide as Hitem.
    + rewrite pushUnique_cons, decide_True by congruence. apply IH.
    + cbn [removeFirst]. rewrite decide_False by congruence. apply IH.
Qed.

Lemma deselectLoop_item_nil x vars l :
  exists v,
    deselectLoop trackBy (ExceptItem x) vars [] l
    = (take 1 (fromFirst trackBy l x), Normal v).
Proof.
  revert vars. induction l as [|item l IH]; intros vars.
  - by exists vars.
  - cbn [deselectLoop decideSelect doSelect fromFirst]. case_bool_decide as Hitem.
    + rewrite pushUnique_nil, decide_True by done.
      by apply deselectLoop_item_single.
    + rewrite decide_False by done. apply IH.
Qed.

Lemma deselectAllItemsExcept_item allItems x w :
  exists v,
    deselectAllItemsExcept trackBy allItems (ExceptItem x) w
    = (withSelected (take 1 (fromFirst trackBy allItems x)) w, Normal v).
Proof.
  rewrite deselectAllItemsExcept_eq.
  destruct (deselectLoop_item_nil x (initialExceptVars (ExceptItem x)) allItems)
    as [v ->].
  by exists v.
Qed.

(** ** Ranges *)

Ltac decide_keys :=
  repeat first
    [ rewrite decide_True by congruence
    | rewrite decide_False by congruence
    | rewrite bool_decide_eq_true_2 by congruence
    | rewrite bool_decide_eq_false_2 by congruence
    | rewrite pushUnique_nil
    | rewrite pushUnique_cons
    | progress cbn [deselectLoop betweenLoop decideSelect indexOfTrackBy_from
                    initialExceptVars exceptArray numItemsFound doSelect
                    removeFirst fst snd orb andb negb Z.b2z delete list_delete
                    foldl fromFirst]
    | progress unfold indexOfTrackBy
    | progress change (Z.to_nat 0) with 0%nat
    | progress change (Z.to_nat (0 + 1)) with 1%nat
    | progress change (-1 <? 0) with true
    | progress change (-1 <? 0 + 1) with true
    | progress change (-1 <? -1) with false
    | progress change (0 + 1) with 1
    | progress change (1 + 1) with 2
    | progress change (1 =? 0) with false
    | progress change (1 =? 1) with true
    | progress change (1 =? 2) with false
    | progress change (0 + 0 =? 1) with false
    | progress change (1 + 0 =? 1) with true
    | progress change (0 + 1 =? 1) with true
    | progress change (1 + 1 =? 1) with false ].

Lemma range_of_five a b c d e :
  NoDup (trackByValues trackBy [a; b; c; d; e]) ->
  (deselectLoop trackBy (ExceptRange (Some b) (Some d))
     (initialExceptVars (ExceptRange (Some b) (Some d))) [] [a; b; c; d; e]).1
  = [b; c; d]
  /\ betweenLoop trackBy d b (false, false) [b; c; d] [a; b; c; d; e] = [b; c; d].
Proof.
  unfold trackByValues. cbn [fmap list_fmap].
  rewrite !NoDup_cons, !not_elem_of_cons. intros Hnd. destruct_and!.
  split; decide_keys; reflexivity.
Qed.

(** After one endpoint was met, and while the other one [o] is not, every
    item is selected. *)
Lemma deselectLoop_range_open a b o ds sel l :
  trackBy o ∉ trackByValues trackBy l ->
  exists ds',
    deselectLoop trackBy (ExceptRange a b) (mkExceptVars [Some o] 1 ds) sel l
    = (foldl (pushUnique trackBy) sel l, Normal (mkExceptVars [Some o] 1 ds')).
Proof.
  revert ds sel. induction l as [|i l IH]; intros ds sel Hnot.
  - by exists ds.
  - unfold trackByValues in Hnot. rewrite fmap_cons, not_elem_of_cons in Hnot.
    destruct Hnot as [Hne Hnot].
    decide_keys. apply IH, Hnot.
Qed.

Lemma deselectLoop_range_one_endpoint a b m o ds l :
  (m = a /\ o = b) \/ (m = b /\ o = a) ->
  trackBy o ∉ trackByValues trackBy l ->
  exists v,
    deselectLoop trackBy (ExceptRange (Some a) (Some b))
      (mkExceptVars [Some a; Some b] 0 ds) [] l
    = (uniqueByTrackBy trackBy (fromFirst trackBy l m), Normal v).
Proof.
  intros Hmo. revert ds. induction l as [|i l IH]; intros ds Hnot.
  - by eexists.
  - unfold trackByValues in Hnot. rewrite fmap_cons, not_elem_of_cons in Hnot.
    destruct Hnot as [Hne Hnot]. unfold uniqueByTrackBy.
    destruct (decide (trackBy i = trackBy m)) as [Him|Him].
    + destruct Hmo as [[-> ->]|[-> ->]]; decide_keys;
        edestruct deselectLoop_range_open as [ds' ->]; eauto.
    + destruct (IH false Hnot) as [v Hv].
      destruct Hmo as [[-> ->]|[-> ->]]; decide_keys; rewrite Hv; eauto.
Qed.

(** The caller's array after the loop, for endpoints with distinct track-by
    values: what is left are the endpoints no item matched. *)
Lemma isUnmatched_snoc p i x :
  isUnmatched trackBy (p ++ [i]) (Some x)
  = isUnmatched trackBy p (Some x) && negb (bool_decide (trackBy x = trackBy i)).
Proof.
  unfold isUnmatched, trackByValues. rewrite fmap_app.
  apply eq_true_iff_eq.
  rewrite andb_true_iff, negb_true_iff, !bool_decide_eq_true, bool_decide_eq_false.
  rewrite not_elem_of_app. cbn [fmap list_fmap]. by rewrite list_elem_of_singleton.
Qed.

Lemma deselectLoop_range_array a b vars sel p l :
  trackBy a <> trackBy b ->
  exceptArray vars = unmatched trackBy p [Some a; Some b] ->
  exists sel' v,
    deselectLoop trackBy (ExceptRange (Some a) (Some b)) vars sel l
    = (sel', Normal v)
    /\ exceptArray v = unmatched trackBy (p ++ l) [Some a; Some b].
Proof.
  intros Hab. revert vars sel p. induction l as [|i l IH]; intros vars sel p Harr.
  - exists sel, vars. by rewrite app_nil_r.
  - replace (p ++ i :: l) with ((p ++ [i]) ++ l) by by rewrite <- app_assoc.
    cbn [deselectLoop decideSelect]. rewrite Harr.
    assert (Hstep : forall arr' n' ds' sel1,
      arr' = unmatched trackBy (p ++ [i]) [Some a; Some b] ->
      exists sel' v,
        deselectLoop trackBy (ExceptRange (Some a) (Some b))
          (mkExceptVars arr' n' ds') sel1 l = (sel', Normal v)
        /\ exceptArray v = unmatched trackBy ((p ++ [i]) ++ l) [Some a; Some b]).
    { intros arr' n' ds' sel1 Harr'. by apply IH. }
    unfold unmatched in *. cbn [List.filter] in *.
    rewrite !isUnmatched_snoc in Hstep. revert Hstep.
    destruct (isUnmatched trackBy p (Some a)), (isUnmatched trackBy p (Some b));
      destruct (bool_decide_reflect (trackBy a = trackBy i)) as [Hai|Hai];
      destruct (bool_decide_reflect (trackBy b = trackBy i)) as [Hbi|Hbi];
      try congruence;
      cbn [andb negb]; intros Hstep; decide_keys; apply Hstep; reflexivity.
Qed.

(** The range whose second endpoint is [undefined] (nothing was pushed on the
    anchor stack): the loop keeps at most the clicked item, whether it ends
    normally or by the [TypeError] of reading the track-by value of
    [undefined]. *)
Lemma deselectLoop_range_undefined sm l :
  let r := deselectLoop trackBy (ExceptRange (Some sm) None)
             (initialExceptVars (ExceptRange (Some sm) None)) [] l in
  r.1 = [] \/ exists y, r.1 = [y] /\ trackBy y = trackBy sm.
Proof.
  destruct l as [|i [|j l]]; cbn zeta; [by left | |].
  - destruct (decide (trackBy sm = trackBy i)); decide_keys; [right; eauto | by left].
  - destruct (decide (trackBy sm = trackBy i)); decide_keys; [right; eauto | by left].
Qed.

(** The range from an item to itself selects the entries with its track-by
    value and nothing else. *)
Lemma betweenLoop_self_single sm y b l :
  trackBy y = trackBy sm ->
  betweenLoop trackBy sm sm (b, b) [y] l = [y].
Proof.
  intros Hy. revert b. induction l as [|i l IH]; intros b; [done|].
  cbn [betweenLoop fst snd].
  destruct (decide (trackBy i = trackBy sm)) as [Hi|Hi].
  - rewrite !bool_decide_eq_true_2 by done. rewrite !orb_true_r. cbn [orb].
    rewrite pushUnique_cons, decide_True by congruence. apply IH.
  - rewrite !bool_decide_eq_false_2 by done. rewrite !orb_false_r.
    replace (Z.b2z b + Z.b2z b =? 1) with false by by destruct b.
    apply IH.
Qed.

Lemma betweenLoop_self_nil sm b l :
  trackBy sm ∈ trackByValues trackBy l ->
  exists y, betweenLoop trackBy sm sm (b, b) [] l = [y] /\ trackBy y = trackBy sm.
Proof.
  revert b. induction l as [|i l IH]; intros b Hin; [inversion Hin|].
  cbn [betweenLoop fst snd].
  destruct (decide (trackBy i = trackBy sm)) as [Hi|Hi].
  - rewrite !bool_decide_eq_true_2 by done. rewrite !orb_true_r. cbn [orb].
    rewrite pushUnique_nil. exists i. split; [by apply betweenLoop_self_single | done].
  - rewrite !bool_decide_eq_false_2 by done. rewrite !orb_false_r.
    replace (Z.b2z b + Z.b2z b =? 1) with false by by destruct b.
    apply IH. unfold trackByValues in Hin. rewrite fmap_cons, elem_of_cons in Hin.
    destruct Hin as [Heq|Hin]; [congruence | done].
Qed.

Lemma betweenLoop_mono sm last found sel l k :
  k ∈ trackByValues trackBy sel ->
  k ∈ trackByValues trackBy (betweenLoop trackBy sm last found sel l).
Proof.
  revert found sel. induction l as [|i l IH]; intros found sel Hk; [done|].
  cbn [betweenLoop]. apply IH.
  match goal with |- context [if ?c then _ else _] => destruct c end; [|done].
  apply elem_of_pushUnique. by left.
Qed.

Lemma betweenLoop_clicked sm last found sel l :
  trackBy sm ∈ trackByValues trackBy l ->
  trackBy sm ∈ trackByValues trackBy (betweenLoop trackBy sm last found sel l).
Proof.
  revert found sel. induction l as [|i l IH]; intros found sel Hin; [inversion Hin|].
  cbn [betweenLoop].
  destruct (decide (trackBy i = trackBy sm)) as [Hi|Hi].
  - apply betweenLoop_mono.
    rewrite (bool_decide_eq_true_2 (trackBy i = trackBy sm)) by done.
    rewrite orb_true_r. cbn [orb].
    apply elem_of_pushUnique. by right.
  - apply IH. unfold trackByValues in Hin. rewrite fmap_cons, elem_of_cons in Hin.
    destruct Hin as [Heq|Hin]; [congruence | done].
Qed.

(** ** The branches of the click handler *)

Lemma handleClickWith_skipped handler d event w :
  isProcessed d event = false ->
  handleClickWith trackBy handler d event w
  = (w, Normal (if isIgnored event || isClickHandled event then event
                else markClickHandled event)).
Proof.
  unfold isProcessed, handleClickWith. intros Hskip.
  destruct (isIgnored event); [done|].
  destruct (isClickHandled event); [done|].
  cbv zeta. simpl in *. by rewrite (negb_false_iff _ ) in Hskip; rewrite Hskip.
Qed.

Lemma handleClickWith_plain handler d event w :
  isProcessed d event = true ->
  isRangeClick d event = false ->
  isToggleClick d event = false ->
  handleClickWith trackBy handler d event w
  = (mkWorld
       (pushUnique trackBy (take 1 (fromFirst trackBy (allItems d) (smItem d)))
          (smItem d))
       (pushed (clickStackId d) (smItem d) (stacks w))
       (errorLog w),
     Normal (markClickHandled event)).
Proof.
  unfold isProcessed, isToggleClick, isRangeClick, isCtrlKeyDown, handleClickWith.
  intros Hproc Hrange Htoggle.
  apply andb_true_iff in Hproc as [Hproc Hlabel].
  apply andb_true_iff in Hproc as [Hign Hhandled].
  apply negb_true_iff in Hign, Hhandled, Hlabel.
  rewrite Hrange in Htoggle. simpl in Htoggle.
  rewrite Hign, Hhandled. cbv zeta. cbn [target shiftKey ctrlKey metaKey markClickHandled].
  rewrite Hlabel.
  change (isCheckboxClick d (markClickHandled event)) with (isCheckboxClick d event).
  rewrite Hrange, Htoggle.
  unfold bind at 1.
  destruct (deselectAllItemsExcept_item (allItems d) (smItem d) w) as [v ->].
  unfold bind, scope_apply, ret, selectionStack_push. simpl.
  rewrite selectItem_eq. reflexivity.
Qed.

Lemma handleClickWith_toggle handler d event w :
  isProcessed d event = true ->
  isToggleClick d event = true ->
  handleClickWith trackBy handler d event w
  = (let sel1 := if isMultiMode d then selectedItemsList w
                 else take 1 (fromFirst trackBy (allItems d) (smItem d)) in
     if bool_decide (trackBy (smItem d) ∈ trackByValues trackBy (selectedItemsList w))
     then mkWorld (removeFirst trackBy sel1 (smItem d)) (stacks w) (errorLog w)
     else mkWorld (pushUnique trackBy sel1 (smItem d))
                  (pushed (clickStackId d) (smItem d) (stacks w)) (errorLog w),
     Normal (markClickHandled event)).
Proof.
  unfold isProcessed, isToggleClick, isRangeClick, isCtrlKeyDown, handleClickWith.
  intros Hproc Htoggle.
  apply andb_true_iff in Hproc as [Hproc Hlabel].
  apply andb_true_iff in Hproc as [Hign Hhandled].
  apply negb_true_iff in Hign, Hhandled, Hlabel.
  apply andb_true_iff in Htoggle as [Hrange Htoggle].
  apply negb_true_iff in Hrange.
  rewrite Hign, Hhandled. cbv zeta. cbn [target shiftKey ctrlKey metaKey markClickHandled].
  rewrite Hlabel.
  change (isCheckboxClick d (markClickHandled event)) with (isCheckboxClick d event).
  rewrite Hrange, Htoggle.
  unfold bind at 1. rewrite isSelected_eq.
  unfold bind at 1.
  destruct (isMultiMode d); cbn [negb].
  - unfold ret at 1.
    case_bool_decide; cbn [negb].
    + unfold bind, scope_apply, ret. rewrite deselectItem_eq. by destruct w.
    + unfold bind, scope_apply, ret, selectionStack_push. rewrite selectItem_eq.
      by destruct w.
  - unfold bind at 1.
    destruct (deselectAllItemsExcept_item (allItems d) (smItem d) w) as [v ->].
    unfold ret at 1.
    case_bool_decide; cbn [negb].
    + unfold bind, scope_apply, ret. rewrite deselectItem_eq. reflexivity.
    + unfold bind, scope_apply, ret, selectionStack_push. rewrite selectItem_eq.
      reflexivity.
Qed.

Lemma handleClickWith_range handler d event w :
  isProcessed d event = true ->
  isRangeClick d event = true ->
  handleClickWith trackBy handler d event w
  = (let last := stacks w !! clickStackId d ≫= head in
     let cleared :=
       deselectLoop trackBy (ExceptRange (Some (smItem d)) last)
         (initialExceptVars (ExceptRange (Some (smItem d)) last)) [] (allItems d) in
     let between sel1 :=
       betweenLoop trackBy (smItem d) (default (smItem d) last) (false, false)
         sel1 (visibleItems d) in
     if isCtrlKeyDown d event then
       (mkWorld (between (selectedItemsList w)) (stacks w) (errorLog w),
        Normal (markClickHandled event))
     else
       match cleared.2, handler with
       | Normal _, _ =>
           (mkWorld (between cleared.1) (stacks w) (errorLog w),
            Normal (markClickHandled event))
       | Throw e, LogsTheError =>
           (mkWorld (between cleared.1) (stacks w) (errorLog w ++ [e]),
            Normal (markClickHandled event))
       | Throw e, ThrowsTheErrorAgain =>
           (mkWorld cleared.1 (stacks w) (errorLog w ++ [e]), Throw e)
       end).
Proof.
  unfold isProcessed, isRangeClick, isCtrlKeyDown, handleClickWith.
  intros Hproc Hrange.
  apply andb_true_iff in Hproc as [Hproc Hlabel].
  apply andb_true_iff in Hproc as [Hign Hhandled].
  apply negb_true_iff in Hign, Hhandled, Hlabel.
  rewrite Hign, Hhandled. cbv zeta. cbn [target shiftKey ctrlKey metaKey markClickHandled].
  rewrite Hlabel.
  change (isCheckboxClick d (markClickHandled event)) with (isCheckboxClick d event).
  rewrite Hrange.
  unfold bind at 1.
  destruct (ctrlKey event || metaKey event || isModeAdditive d); cbn [negb].
  - unfold ret at 1. unfold bind at 1. unfold selectionStack_peek at 1.
    unfold bind at 1. rewrite selectItemsBetween_eq.
    unfold bind, scope_apply, ret. by destruct w.
  - unfold scope_apply at 1. unfold bind at 1. unfold selectionStack_peek at 1.
    rewrite deselectAllItemsExcept_eq.
    destruct (deselectLoop trackBy _ _ [] (allItems d)) as [sel1 [v|e]];
      cbn [fst snd]; [|destruct handler; [|reflexivity]];
      unfold bind at 1; unfold selectionStack_peek at 1;
      unfold bind at 1; rewrite selectItemsBetween_eq;
      unfold bind, scope_apply, ret; reflexivity.
Qed.

(** The branches in a host that keeps the framework's own handler. *)

Lemma handleClick_skipped d event w :
  isProcessed d event = false ->
  handleClick trackBy d event w
  = (w, Normal (if isIgnored event || isClickHandled event then event
                else markClickHandled event)).
Proof. apply handleClickWith_skipped. Qed.

Lemma handleClick_plain d event w :
  isProcessed d event = true ->
  isRangeClick d event = false ->
  isToggleClick d event = false ->
  handleClick trackBy d event w
  = (mkWorld
       (pushUnique trackBy (take 1 (fromFirst trackBy (allItems d) (smItem d)))
          (smItem d))
       (pushed (clickStackId d) (smItem d) (stacks w))
       (errorLog w),
     Normal (markClickHandled event)).
Proof. apply handleClickWith_plain. Qed.

Lemma handleClick_toggle d event w :
  isProcessed d event = true ->
  isToggleClick d event = true ->
  handleClick trackBy d event w
  = (let sel1 := if isMultiMode d then selectedItemsList w
                 else take 1 (fromFirst trackBy (allItems d) (smItem d)) in
     if bool_decide (trackBy (smItem d) ∈ trackByValues trackBy (selectedItemsList w))
     then mkWorld (removeFirst trackBy sel1 (smItem d)) (stacks w) (errorLog w)
     else mkWorld (pushUnique trackBy sel1 (smItem d))
                  (pushed (clickStackId d) (smItem d) (stacks w)) (errorLog w),
     Normal (markClickHandled event)).
Proof. apply handleClickWith_toggle. Qed.

Lemma handleClick_range d event w :
  isProcessed d event = true ->
  isRangeClick d event = true ->
  handleClick trackBy d event w
  = (let last := stacks w !! clickStackId d ≫= head in
     let cleared :=
       deselectLoop trackBy (ExceptRange (Some (smItem d)) last)
         (initialExceptVars (ExceptRange (Some (smItem d)) last)) [] (allItems d) in
     let sel1 := if isCtrlKeyDown d event then selectedItemsList w else cleared.1 in
     let log1 :=
       if isCtrlKeyDown d event then errorLog w
       else match cleared.2 with
            | Normal _ => errorLog w
            | Throw e => errorLog w ++ [e]
            end in
     mkWorld
       (betweenLoop trackBy (smItem d) (default (smItem d) last) (false, false)
          sel1 (visibleItems d))
       (stacks w) log1,
     Normal (markClickHandled event)).
Proof.
  intros Hproc Hrange. unfold handleClick.
  rewrite handleClickWith_range by done. cbv zeta.
  destruct (isCtrlKeyDown d event); [done|].
  by destruct (deselectLoop trackBy _ _ [] (allItems d)) as [sel1 [v|e]].
Qed.

(** ** Uniqueness of track-by values *)

Lemma pushUnique_NoDup sel item :
  NoDup (trackByValues trackBy sel) ->
  NoDup (trackByValues trackBy (pushUnique trackBy sel item)).
Proof.
  intros Hnd. unfold pushUnique. case_decide; [done|].
  unfold trackByValues in *. rewrite fmap_app. simpl.
  apply NoDup_app. split; [done|]. split; [|apply NoDup_singleton].
  intros k Hk Hk'. apply list_elem_of_singleton in Hk'. by subst.
Qed.

Lemma removeFirst_sublist sel item : sublist (removeFirst trackBy sel item) sel.
Proof.
  induction sel as [|x sel IH]; simpl; [done|].
  case_decide; [by apply sublist_cons | by apply sublist_skip].
Qed.

Lemma removeFirst_NoDup sel item :
  NoDup (trackByValues trackBy sel) ->
  NoDup (trackByValues trackBy (removeFirst trackBy sel item)).
Proof.
  intros Hnd. eapply sublist_NoDup; [exact Hnd|].
  apply fmap_sublist, removeFirst_sublist.
Qed.

Lemma preserves_ret {A} (a : A) : preserves trackBy (ret a).
Proof. by intros w Hw. Qed.

Lemma preserves_lift {A} (c : Completion A) : preserves trackBy (lift c).
Proof. by intros w Hw. Qed.

Lemma preserves_bind {A B} (m : M A) (f : A -> M B) :
  preserves trackBy m -> (forall a, preserves trackBy (f a)) ->
  preserves trackBy (bind m f).
Proof.
  intros Hm Hf w Hw. unfold bind. specialize (Hm w Hw).
  destruct (m w) as [w' [a|e]]; simpl in *; [by apply Hf | done].
Qed.

Lemma preserves_forEach {A V} (array : list A) (callback : V -> A -> M V) vars :
  (forall v a, preserves trackBy (callback v a)) ->
  preserves trackBy (forEach array callback vars).
Proof.
  intros Hcb. revert vars. induction array as [|a array IH]; intros vars; simpl.
  - apply preserves_ret.
  - apply preserves_bind; [apply Hcb | intros v; apply IH].
Qed.

Lemma preserves_scope_apply handler {A} (fn : M A) :
  preserves trackBy fn -> preserves trackBy (scope_apply handler fn).
Proof.
  intros Hfn w Hw. unfold scope_apply. specialize (Hfn w Hw).
  by destruct (fn w) as [w' [a|e]].
Qed.

Lemma preserves_getSelectedItemsList :
  preserves trackBy (getSelectedItemsList (Item := Item)).
Proof. by intros w Hw. Qed.

Lemma preserves_clear : preserves trackBy (setSelectedItemsList (Item := Item) []).
Proof. intros w Hw. apply NoDup_nil_2. Qed.

Lemma preserves_selectionStack_push id item :
  preserves trackBy (selectionStack_push id item).
Proof. by intros w Hw. Qed.

Lemma preserves_selectionStack_peek id :
  preserves trackBy (selectionStack_peek (Item := Item) id).
Proof. by intros w Hw. Qed.

Lemma preserves_isSelected item : preserves trackBy (isSelected trackBy item).
Proof. intros w Hw. by rewrite isSelected_eq. Qed.

Lemma preserves_selectItem item : preserves trackBy (selectItem trackBy item).
Proof. intros w Hw. rewrite selectItem_eq. by apply pushUnique_NoDup. Qed.

Lemma preserves_deselectItem item : preserves trackBy (deselectItem trackBy item).
Proof. intros w Hw. rewrite deselectItem_eq. by apply removeFirst_NoDup. Qed.

Lemma preserves_if {A} (b : bool) (m1 m2 : M A) :
  preserves trackBy m1 -> preserves trackBy m2 ->
  preserves trackBy (if b then m1 else m2).
Proof. by destruct b. Qed.

Create HintDb preserves discriminated.

#[local] Hint Resolve
  preserves_ret preserves_lift preserves_bind preserves_forEach
  preserves_scope_apply preserves_getSelectedItemsList preserves_clear
  preserves_selectionStack_push preserves_selectionStack_peek
  preserves_isSelected preserves_selectItem preserves_deselectItem
  preserves_if : preserves.

Ltac solve_preserves :=
  repeat first
    [ progress intros
    | solve [auto with preserves]
    | apply preserves_if
    | apply preserves_scope_apply
    | apply preserves_forEach
    | apply preserves_bind ].

Lemma preserves_deselectAllItemsExcept allItems except :
  preserves trackBy (deselectAllItemsExcept trackBy allItems except).
Proof.
  unfold deselectAllItemsExcept, deselectCallback.
  auto 10 with preserves.
Qed.

Lemma preserves_selectItemsBetween visibleItems smItem lastItem :
  preserves trackBy (selectItemsBetween trackBy visibleItems smItem lastItem).
Proof.
  unfold selectItemsBetween, betweenCallback.
  auto 10 with preserves.
Qed.

#[local] Hint Resolve
  preserves_deselectAllItemsExcept preserves_selectItemsBetween : preserves.

Lemma preserves_handleClick d event : preserves trackBy (handleClick trackBy d event).
Proof.
  unfold handleClick. cbv zeta. solve_preserves.
Qed.

Lemma preserves_selectedAttributeWatcher d newVal oldVal :
  preserves trackBy (selectedAttributeWatcher trackBy d newVal oldVal).
Proof.
  unfold selectedAttributeWatcher. auto 10 with preserves.
Qed.

Lemma perform_unique op w :
  uniqueSelection trackBy w -> uniqueSelection trackBy (perform trackBy op w).
Proof.
  destruct op; simpl;
    [ apply preserves_selectItem | apply preserves_deselectItem
    | apply preserves_deselectAllItemsExcept | apply preserves_selectItemsBetween
    | apply preserves_handleClick | apply preserves_selectedAttributeWatcher ].
Qed.

(** ** The event a click leaves behind *)

Lemma handleClick_completes d event w :
  exists w',
    handleClick trackBy d event w
    = (w', Normal (if isIgnored event || isClickHandled event then event
                   else markClickHandled event)).
Proof.
  destruct (isProcessed d event) eqn:Hproc.
  - assert (isIgnored event || isClickHandled event = false) as ->.
    { unfold isProcessed in Hproc.
      destruct (isIgnored event), (isClickHandled event); done. }
    destruct (isRangeClick d event) eqn:Hrange.
    + rewrite handleClick_range by done. eauto.
    + destruct (isToggleClick d event) eqn:Htoggle.
      * rewrite handleClick_toggle by done. cbv zeta. case_bool_decide; eauto.
      * rewrite handleClick_plain by done. eauto.
  - rewrite handleClick_skipped by done. eauto.
Qed.

Lemma isClickHandled_markClickHandled event :
  isClickHandled (markClickHandled event) = true.
Proof. reflexivity. Qed.

Lemma handleClick_marked d event w :
  isIgnored event || isClickHandled event = true ->
  handleClick trackBy d event w = (w, Normal event).
Proof.
  intros Hmarked. rewrite handleClick_skipped.
  - by rewrite Hmarked.
  - unfold isProcessed. destruct (isIgnored event), (isClickHandled event); done.
Qed.

(** ** The watcher after a click

    The toggle branch ends with [updateSelectedAttributeValue] and a digest,
    so the watchers of the rows whose attribute changed run with the new
    attribute, which is [isSelected] of their item.  In multi mode such a
    notification finds the selection sequence already as it wants it. *)

Lemma selectedAttributeWatcher_in_sync d newVal oldVal w :
  isMultiMode d = true ->
  isSelected trackBy (smItem d) w = (w, Normal (truthy newVal)) ->
  selectedAttributeWatcher trackBy d newVal oldVal w = (w, Normal tt).
Proof.
  intros Hmulti Hsync. rewrite isSelected_eq in Hsync.
  unfold selectedAttributeWatcher. rewrite Hmulti. cbn [negb andb].
  destruct (bool_decide (newVal <> oldVal)); [|reflexivity].
  unfold bind at 1. unfold ret at 1.
  destruct (truthy newVal).
  - rewrite selectItem_eq, pushUnique_present, withSelected_same; [done|].
    eapply bool_decide_eq_true_1. congruence.
  - rewrite deselectItem_eq, removeFirst_absent, withSelected_same; [done|].
    eapply bool_decide_eq_false_1. congruence.
Qed.

(** ** The claims about arbitrary items *)

(** C2, as amended.  When exactly one endpoint [m] of the pair [[a, b]] occurs
    in the full collection, [deselectAllItemsExcept] completes and leaves in
    the selection sequence the items of the full collection from the first
    one with the track-by value of [m] through the last item, one entry for
    each track-by value: the range stays open to the end of the collection. *)
Theorem one_endpoint_range_runs_to_the_end allItems a b m o w :
  (m = a /\ o = b) \/ (m = b /\ o = a) ->
  trackBy m ∈ trackByValues trackBy allItems ->
  trackBy o ∉ trackByValues trackBy allItems ->
  exists v y rest,
    deselectAllItemsExcept trackBy allItems (ExceptRange (Some a) (Some b)) w
    = (withSelected (uniqueByTrackBy trackBy (y :: rest)) w, Normal v)
    /\ fromFirst trackBy allItems m = y :: rest
    /\ trackBy y = trackBy m.
Proof.
  intros Hmo Hm Ho.
  destruct (fromFirst_present allItems m Hm) as (y & rest & Hfrom & Hy).
  destruct (deselectLoop_range_one_endpoint a b m o true allItems Hmo Ho) as [v Hv].
  exists v, y, rest. split; [|done].
  rewrite deselectAllItemsExcept_eq.
  change (initialExceptVars (ExceptRange (Some a) (Some b)))
    with (mkExceptVars [Some a; Some b] 0 true).
  by rewrite Hv, Hfrom.
Qed.

(** C5.  From a selection sequence with pairwise distinct track-by values,
    any sequence of [select], [deselect], [deselectAllExcept],
    [selectBetween], clicks and watcher notifications leaves a selection
    sequence with pairwise distinct track-by values. *)
Theorem uniqueness_invariant ops w :
  uniqueSelection trackBy w -> uniqueSelection trackBy (performAll trackBy ops w).
Proof.
  unfold performAll. revert w.
  induction ops as [|op ops IH]; intros w Hw; [done|].
  simpl. apply IH. by apply perform_unique.
Qed.

(** C6.  With full and visible collection [[a, b, c, d, e]] of distinct
    track-by values and any selection to start from,
    [deselectAllExcept([b, d])] followed by [selectBetween(b, d)] leaves
    exactly [b], [c] and [d] selected. *)
Theorem range_is_inclusive a b c d e w :
  NoDup (trackByValues trackBy [a; b; c; d; e]) ->
  let collection := [a; b; c; d; e] in
  let w1 :=
    (deselectAllItemsExcept trackBy collection (ExceptRange (Some b) (Some d)) w).1 in
  let w2 := (selectItemsBetween trackBy collection d (Some b) w1).1 in
  selectedItemsList w2 = [b; c; d]
  /\ (forall k, k ∈ trackByValues trackBy (selectedItemsList w2)
                <-> k = trackBy b \/ k = trackBy c \/ k = trackBy d).
Proof.
  intros Hnd. cbv zeta.
  rewrite deselectAllItemsExcept_eq, selectItemsBetween_eq.
  destruct (range_of_five a b c d e Hnd) as [Hclear Hbetween].
  change (default d (Some b)) with b.
  cbn [fst selectedItemsList withSelected].
  rewrite Hclear, Hbetween. split; [done|].
  intros k. unfold trackByValues. cbn [fmap list_fmap].
  rewrite !elem_of_cons. split; [|tauto].
  intros [?|[?|[?|Hk]]]; [tauto..|inversion Hk].
Qed.

(** C7.  A ctrl-click on an item that is not selected selects it and pushes
    it on the anchor stack of the group; a second ctrl-click on it deselects
    it and leaves the anchor stack as it was, so that [peek] still returns
    the item. *)
Theorem ctrl_click_toggles d event1 event2 w :
  isCtrlClick d event1 = true ->
  isCtrlClick d event2 = true ->
  isSelected trackBy (smItem d) w = (w, Normal false) ->
  exists w1 w2,
    handleClick trackBy d event1 w = (w1, Normal (markClickHandled event1))
    /\ isSelected trackBy (smItem d) w1 = (w1, Normal true)
    /\ stacks w1 = pushed (clickStackId d) (smItem d) (stacks w)
    /\ handleClick trackBy d event2 w1 = (w2, Normal (markClickHandled event2))
    /\ isSelected trackBy (smItem d) w2 = (w2, Normal false)
    /\ stacks w2 = stacks w1
    /\ selectionStack_peek (clickStackId d) w2 = (w2, Normal (Some (smItem d))).
Proof.
  assert (Htoggle : forall event,
    isCtrlClick d event = true ->
    isProcessed d event = true /\ isToggleClick d event = true).
  { intros event Hc. unfold isCtrlClick in Hc.
    apply andb_true_iff in Hc as [Hc Hshift].
    apply andb_true_iff in Hc as [Hproc Hkeys].
    apply negb_true_iff in Hshift. split; [done|].
    unfold isToggleClick, isRangeClick, isCtrlKeyDown. rewrite Hshift.
    cbn [andb negb]. by rewrite Hkeys. }
  intros [Hproc1 Htoggle1]%Htoggle [Hproc2 Htoggle2]%Htoggle Hsel.
  rewrite isSelected_eq in Hsel.
  assert (bool_decide
            (trackBy (smItem d) ∈ trackByValues trackBy (selectedItemsList w))
          = false) as Hnot by congruence.
  rewrite handleClick_toggle by done. cbv zeta. rewrite Hnot.
  eexists. eexists. split; [reflexivity|].
  assert (Hin : forall sel1,
    trackBy (smItem d) ∈ trackByValues trackBy (pushUnique trackBy sel1 (smItem d))).
  { intros sel1. apply elem_of_pushUnique. by right. }
  split; [rewrite isSelected_eq; cbn [selectedItemsList];
          by rewrite bool_decide_eq_true_2|].
  split; [reflexivity|].
  rewrite handleClick_toggle by done. cbv zeta. cbn [selectedItemsList stacks errorLog].
  rewrite bool_decide_eq_true_2 by apply Hin.
  split; [reflexivity|].
  split; [|split; [reflexivity|]].
  - rewrite isSelected_eq. cbn [selectedItemsList].
    rewrite bool_decide_eq_false_2; [done|].
    apply bool_decide_eq_false in Hnot.
    destruct (isMultiMode d).
    + by rewrite removeFirst_pushUnique_absent.
    + destruct (fromFirst_cases (allItems d) (smItem d))
        as [-> | (y & rest & -> & Hy)]; cbn [take removeFirst].
      * apply not_elem_of_nil.
      * rewrite decide_True by done. apply not_elem_of_nil.
  - unfold selectionStack_peek, pushed. cbn [stacks].
    by rewrite lookup_insert_eq.
Qed.

(** C8.  A click event that carries the "already handled" marker, or is
    flagged to be ignored, changes nothing: neither the selection sequence
    nor the anchor stacks.  Every click leaves the marker on its event (and on
    the native event it wraps), so a second notification of the same click,
    to any row, with the same event object or, after a click that was
    processed, with another wrapper of the same native event, changes
    nothing. *)
Theorem handled_click_changes_nothing d event w :
  (isIgnored event || isClickHandled event = true ->
   handleClick trackBy d event w = (w, Normal event))
  /\ exists w1 event1,
       handleClick trackBy d event w = (w1, Normal event1)
       /\ (forall d', handleClick trackBy d' event1 w1 = (w1, Normal event1))
       /\ (forall d' event2,
             isIgnored event || isClickHandled event = false ->
             is_Some (originalEvent event1) ->
             originalEvent event2 = originalEvent event1 ->
             handleClick trackBy d' event2 w1 = (w1, Normal event2)).
Proof.
  split; [apply handleClick_marked|].
  destruct (handleClick_completes d event w) as [w1 Hw1].
  eexists w1, _. split; [exact Hw1|].
  destruct (isIgnored event || isClickHandled event) eqn:Hmarked.
  - split.
    + intros d'. by apply handleClick_marked.
    + intros d' event2 Hfresh. discriminate Hfresh.
  - split.
    + intros d'. apply handleClick_marked.
      rewrite isClickHandled_markClickHandled. apply orb_true_r.
    + intros d' event2 _ [o Ho] Heq. apply handleClick_marked.
      unfold isClickHandled. rewrite Heq.
      cbn [markClickHandled originalEvent] in Ho |- *.
      destruct (originalEvent event); [|done]. cbn.
      rewrite !orb_true_r. done.
Qed.

(** C9.  [select(item)] twice in succession gives the selection sequence that
    one call gives; a call appends the item exactly when no entry has its
    track-by value. *)
Theorem selectItem_idempotent item w :
  bind (selectItem trackBy item) (fun _ => selectItem trackBy item) w
  = selectItem trackBy item w
  /\ selectedItemsList (selectItem trackBy item w).1
     = if decide (trackBy item ∈ trackByValues trackBy (selectedItemsList w))
       then selectedItemsList w
       else selectedItemsList w ++ [item].
Proof.
  unfold bind. rewrite !selectItem_eq. cbn [fst selectedItemsList withSelected].
  split; [|reflexivity].
  by rewrite pushUnique_idempotent.
Qed.

(** C10, as amended.  For a pair of two items with distinct track-by values,
    [deselectAllItemsExcept] completes and splices the caller's array in
    place: an endpoint leaves the array at the first item of the full
    collection with its track-by value, and what the array holds afterwards
    are the endpoints that no item matched (nothing, when both occur). *)
Theorem except_pair_is_consumed allItems a b w :
  trackBy a <> trackBy b ->
  exists w' v,
    deselectAllItemsExcept trackBy allItems (ExceptRange (Some a) (Some b)) w
    = (w', Normal v)
    /\ exceptArray v = unmatched trackBy allItems [Some a; Some b]
    /\ (trackBy a ∈ trackByValues trackBy allItems ->
        trackBy b ∈ trackByValues trackBy allItems ->
        exceptArray v = []).
Proof.
  intros Hab. rewrite deselectAllItemsExcept_eq.
  destruct (deselectLoop_range_array a b
              (initialExceptVars (ExceptRange (Some a) (Some b))) [] [] allItems Hab)
    as (sel' & v & Hloop & Harr); [reflexivity|].
  rewrite Hloop. eexists _, v. split; [reflexivity|].
  rewrite app_nil_l in Harr. split; [exact Harr|].
  intros Ha Hb. rewrite Harr. unfold unmatched, isUnmatched. cbn [List.filter].
  by rewrite !bool_decide_eq_false_2 by (intros Hn; by apply Hn).
Qed.

End Properties.

(** * The scenario and the concrete runs *)

Import Scenario.

Ltac by_computation := refine (bool_decide_unpack _ _); vm_compute; exact I.

(** C1.  Mode [multi], full collection [{id:1}] to [{id:4}] tracked by [id],
    nothing selected to start with: a plain click on item 1, a shift-click on
    item 3, a ctrl-click on item 4 and a plain click on item 2 give the
    selections 1; then 1, 2, 3; then 1, 2, 3, 4; then 2. *)
Theorem end_to_end_scenario :
  let w1 := clickOn 1 false false emptyWorld in
  let w2 := clickOn 3 false true w1 in
  let w3 := clickOn 4 true false w2 in
  let w4 := clickOn 2 false false w3 in
  ids w1 = [1] /\ ids w2 = [1; 2; 3] /\ ids w3 = [1; 2; 3; 4] /\ ids w4 = [2].
Proof. vm_compute. repeat split. Qed.

(** C2 fails as stated: with the full collection of the scenario and the pair
    [[{id:2}, {id:9}]], only the first endpoint occurs, and the selection
    is items 2, 3 and 4, not item 2 alone. *)
Lemma one_endpoint_range_counterexample :
  let w' :=
    (deselectAllItemsExcept id fullCollection
       (ExceptRange (Some (mkIdItem 2)) (Some (mkIdItem 9))) emptyWorld).1 in
  id (mkIdItem 2) ∈ trackByValues id fullCollection
  /\ (id (mkIdItem 9) ∉ trackByValues id fullCollection)
  /\ selectedItemsList w' = [mkIdItem 2; mkIdItem 3; mkIdItem 4]
  /\ selectedItemsList w' <> [mkIdItem 2].
Proof.
  cbv zeta. split; [by_computation|]. split; [by_computation|].
  assert (selectedItemsList
            (deselectAllItemsExcept id fullCollection
               (ExceptRange (Some (mkIdItem 2)) (Some (mkIdItem 9))) emptyWorld).1
          = [mkIdItem 2; mkIdItem 3; mkIdItem 4]) as -> by (vm_compute; reflexivity).
  split; [reflexivity | discriminate].
Qed.

Lemma one_endpoint_range_witness :
  exists v y rest,
    deselectAllItemsExcept id fullCollection
      (ExceptRange (Some (mkIdItem 2)) (Some (mkIdItem 9))) emptyWorld
    = (withSelected (uniqueByTrackBy id (y :: rest)) emptyWorld, Normal v)
    /\ fromFirst id fullCollection (mkIdItem 2) = y :: rest
    /\ id y = id (mkIdItem 2).
Proof.
  apply (one_endpoint_range_runs_to_the_end id fullCollection
           (mkIdItem 2) (mkIdItem 9) (mkIdItem 2) (mkIdItem 9) emptyWorld).
  - left. split; reflexivity.
  - by_computation.
  - by_computation.
Defined.

(** C3 is right and the code is not.  The handler means a shift-click
    without an anchor to fall back on the clicked item ([lastItem || smItem],
    line 295), but before that it passes [[smItem, undefined]] to
    [deselectAllItemsExcept] (line 390), where [indexOfTrackBy] reads the
    track-by value of the [undefined] entry (line 195).  On the scenario, with
    nothing selected and nothing pushed, for a shift-click on item 3: the call
    of line 390 throws a [TypeError]; in a host whose [$exceptionHandler]
    throws the exception again the click handler throws it and leaves nothing
    selected; in a host that keeps the framework's handler the handler is
    handed the [TypeError], and only then is item 3 selected. *)
Theorem first_shift_click_raises_a_type_error :
  deselectAllItemsExcept id fullCollection
    (ExceptRange (Some (mkIdItem 3)) None) emptyWorld
  = (emptyWorld, Throw TypeError)
  /\ handleClickWith id ThrowsTheErrorAgain (row 3) (click false true) emptyWorld
     = (mkWorld [] (stacks emptyWorld) [TypeError], Throw TypeError)
  /\ handleClick id (row 3) (click false true) emptyWorld
     = (mkWorld [mkIdItem 3] (stacks emptyWorld) [TypeError],
        Normal (markClickHandled (click false true))).
Proof. vm_compute. repeat split. Qed.

(** C4 is right and the code is not: on a non-empty full collection,
    [deselectAllItemsExcept(undefined)] clears the selection sequence and then
    raises a [TypeError] at [except[trackBy]] (line 276), although the comment
    above the function lists [undefined] as an argument that deselects
    everything. *)
Theorem deselect_all_except_undefined_throws w :
  deselectAllItemsExcept id fullCollection ExceptUndefined w
  = (withSelected [] w, Throw TypeError).
Proof. rewrite deselectAllItemsExcept_eq. reflexivity. Qed.

Lemma uniqueness_invariant_witness :
  uniqueSelection id emptyWorld
  /\ uniqueSelection id
       (performAll id
          [OpClick (row 1) (click false false);
           OpClick (row 3) (click false true);
           OpSelect (mkIdItem 3);
           OpDeselectAllExcept fullCollection ExceptUndefined;
           OpSelectBetween fullCollection (mkIdItem 4) (Some (mkIdItem 2));
           OpDeselect (mkIdItem 3);
           OpWatcher (row 2) (Some true) None]
          emptyWorld).
Proof.
  assert (Hstart : uniqueSelection id emptyWorld) by apply NoDup_nil_2.
  split; [exact Hstart|].
  apply (uniqueness_invariant id _ emptyWorld Hstart).
Defined.

Lemma range_is_inclusive_witness :
  let collection := mkIdItem <$> [1; 2; 3; 4; 5] in
  let w1 :=
    (deselectAllItemsExcept id collection
       (ExceptRange (Some (mkIdItem 2)) (Some (mkIdItem 4)))
       (clickOn 5 false false emptyWorld)).1 in
  let w2 := (selectItemsBetween id collection (mkIdItem 4) (Some (mkIdItem 2)) w1).1 in
  selectedItemsList w2 = [mkIdItem 2; mkIdItem 3; mkIdItem 4]
  /\ (forall k, k ∈ trackByValues id (selectedItemsList w2)
                <-> k = 2 \/ k = 3 \/ k = 4).
Proof.
  apply (range_is_inclusive id (mkIdItem 1) (mkIdItem 2) (mkIdItem 3)
           (mkIdItem 4) (mkIdItem 5) (clickOn 5 false false emptyWorld)).
  by_computation.
Defined.

Lemma ctrl_click_toggles_witness :
  exists w1 w2,
    handleClick id (row 4) (click true false) emptyWorld
    = (w1, Normal (markClickHandled (click true false)))
    /\ isSelected id (smItem (row 4)) w1 = (w1, Normal true)
    /\ stacks w1 = pushed (clickStackId (row 4)) (smItem (row 4)) (stacks emptyWorld)
    /\ handleClick id (row 4) (click true false) w1
       = (w2, Normal (markClickHandled (click true false)))
    /\ isSelected id (smItem (row 4)) w2 = (w2, Normal false)
    /\ stacks w2 = stacks w1
    /\ selectionStack_peek (clickStackId (row 4)) w2
       = (w2, Normal (Some (smItem (row 4)))).
Proof.
  apply (ctrl_click_toggles id (row 4) (click true false) (click true false)
           emptyWorld).
  - vm_compute. reflexivity.
  - vm_compute. reflexivity.
  - vm_compute. reflexivity.
Defined.

Lemma handled_click_changes_nothing_witness :
  let event := markClickHandled (click false false) in
  let w := clickOn 1 false false emptyWorld in
  isIgnored event || isClickHandled event = true
  /\ handleClick id (row 2) event w = (w, Normal event).
Proof.
  cbv zeta. split; [reflexivity|].
  apply (proj1 (handled_click_changes_nothing id (row 2)
                  (markClickHandled (click false false))
                  (clickOn 1 false false emptyWorld))).
  reflexivity.
Defined.

(** C10 fails as stated: with the pair [[{id:2}, {id:2}]] (a shift-click on
    the anchor itself) both endpoints occur in the full collection of the
    scenario, and the array still holds one endpoint after the call. *)
Lemma except_pair_counterexample :
  id (mkIdItem 2) ∈ trackByValues id fullCollection
  /\ (deselectAllItemsExcept id fullCollection
        (ExceptRange (Some (mkIdItem 2)) (Some (mkIdItem 2))) emptyWorld).2
     = Normal (mkExceptVars [Some (mkIdItem 2)] 1 true)
  /\ exceptArray (mkExceptVars [Some (mkIdItem 2)] 1 true) <> [].
Proof.
  split; [by_computation|]. split; [vm_compute; reflexivity | discriminate].
Qed.

Lemma except_pair_is_consumed_witness :
  id (mkIdItem 1) <> id (mkIdItem 3)
  /\ exists w' v,
       deselectAllItemsExcept id fullCollection
         (ExceptRange (Some (mkIdItem 1)) (Some (mkIdItem 3))) emptyWorld
       = (w', Normal v)
       /\ exceptArray v
          = unmatched id fullCollection [Some (mkIdItem 1); Some (mkIdItem 3)]
       /\ (id (mkIdItem 1) ∈ trackByValues id fullCollection ->
           id (mkIdItem 3) ∈ trackByValues id fullCollection ->
           exceptArray v = []).
Proof.
  assert (Hne : id (mkIdItem 1) <> id (mkIdItem 3)) by (simpl; lia).
  split; [exact Hne|].
  apply (except_pair_is_consumed id fullCollection (mkIdItem 1) (mkIdItem 3)
           emptyWorld Hne).
Defined.

(** * Further properties of the directive *)

Section MoreProperties.

Context {Item K : Type} `{EqDecision K}.
Variable trackBy : Item -> K.

Implicit Types (w : World (Item := Item)) (item x y : Item) (sel l : list Item).

(** ** ItemIndex *)

Lemma indexOfTrackBy_from_spec l item i :
  exists r,
    indexOfTrackBy_from trackBy i (Some <$> l) item = Normal r
    /\ ((r = -1 /\ trackBy item ∉ trackByValues trackBy l)
        \/ exists n : nat,
             r = i + Z.of_nat n
             /\ (exists x, l !! n = Some x /\ trackBy x = trackBy item)
             /\ forall (j : nat) y,
                  (j < n)%nat -> l !! j = Some y -> trackBy y <> trackBy item).
Proof.
  revert i. induction l as [|x l IH]; intros i.
  - exists (-1). split; [done|]. left. split; [done | apply not_elem_of_nil].
  - rewrite fmap_cons. cbn [indexOfTrackBy_from].
    destruct (decide (trackBy x = trackBy item)) as [Hx|Hx].
    + exists i. split; [done|]. right. exists 0%nat.
      split; [lia|]. split; [by exists x | intros j y Hj; lia].
    + destruct (IH (i + 1)) as (r & Hr & Hcase). exists r. split; [done|].
      destruct Hcase as [[-> Hnot] | (n & -> & Hfound & Hfirst)].
      * left. split; [done|]. unfold trackByValues in *.
        rewrite fmap_cons, not_elem_of_cons. split; [congruence | done].
      * right. exists (S n). split; [lia|]. split; [done|].
        intros [|j] y Hj Hy; simpl in Hy.
        -- congruence.
        -- apply (Hfirst j y); [lia | done].
Qed.

(** X1.  On an array without holes [indexOfTrackBy] never throws; it returns
    [-1] exactly when no entry has the track-by value of the item, and
    otherwise the position, within bounds, of the first entry that has it. *)
Theorem indexOfTrackBy_first_match l item :
  exists r,
    indexOfTrackBy trackBy (Some <$> l) item = Normal r
    /\ (r = -1 <-> trackBy item ∉ trackByValues trackBy l)
    /\ (r <> -1 ->
        0 <= r < Z.of_nat (length l)
        /\ (exists x, l !! Z.to_nat r = Some x /\ trackBy x = trackBy item)
        /\ forall (j : nat) y,
             (j < Z.to_nat r)%nat -> l !! j = Some y -> trackBy y <> trackBy item).
Proof.
  destruct (indexOfTrackBy_from_spec l item 0) as (r & Hr & Hcase).
  exists r. split; [exact Hr|].
  destruct Hcase as [[-> Hnot] | (n & -> & (x & Hx & Hkey) & Hfirst)].
  - split; [done|]. intros Hne. done.
  - assert (Hin : trackBy item ∈ trackByValues trackBy l).
    { unfold trackByValues. rewrite <- Hkey. apply list_elem_of_fmap_2.
      by eapply list_elem_of_lookup_2. }
    split; [split; [lia | done]|]. intros _.
    replace (Z.to_nat (0 + Z.of_nat n)) with n by lia.
    split; [|split; [by exists x | done]].
    apply lookup_lt_Some in Hx. lia.
Qed.

(** X2.  An [undefined] entry makes [indexOfTrackBy] throw a [TypeError]
    exactly when the loop reaches it: entries after the first match are never
    read. *)
Theorem indexOfTrackBy_undefined_entry l item rest :
  (trackBy item ∉ trackByValues trackBy l ->
   indexOfTrackBy trackBy ((Some <$> l) ++ None :: rest) item = Throw TypeError)
  /\ (trackBy item ∈ trackByValues trackBy l ->
      indexOfTrackBy trackBy ((Some <$> l) ++ rest) item
      = indexOfTrackBy trackBy (Some <$> l) item).
Proof.
  unfold indexOfTrackBy. generalize 0 as i.
  induction l as [|x l IH]; intros i.
  - split; [done|]. intros Hin. inversion Hin.
  - unfold trackByValues in *. rewrite !fmap_cons, <- !app_comm_cons.
    cbn [indexOfTrackBy_from].
    destruct (decide (trackBy x = trackBy item)) as [Hx|Hx].
    + split; [|done]. rewrite not_elem_of_cons. intros [Hne _]. congruence.
    + destruct (IH (i + 1)) as [IHthrow IHfound]. split.
      * rewrite not_elem_of_cons. intros [_ Hnot]. by apply IHthrow.
      * rewrite elem_of_cons. intros [Heq|Hin]; [congruence | by apply IHfound].
Qed.

(** ** SelectionSet *)

Lemma elem_of_removeFirst_other sel item k :
  k <> trackBy item ->
  k ∈ trackByValues trackBy (removeFirst trackBy sel item)
  <-> k ∈ trackByValues trackBy sel.
Proof.
  intros Hk. unfold trackByValues.
  induction sel as [|x sel IH]; cbn [removeFirst]; [done|].
  case_decide as Hx.
  - rewrite fmap_cons, elem_of_cons. split; [by right|].
    intros [->|?]; [congruence | done].
  - rewrite !fmap_cons, !elem_of_cons. by rewrite IH.
Qed.

Lemma removeFirst_unique_absent sel item :
  NoDup (trackByValues trackBy sel) ->
  trackBy item ∉ trackByValues trackBy (removeFirst trackBy sel item).
Proof.
  unfold trackByValues. induction sel as [|x sel IH]; cbn [removeFirst].
  - intros _. apply not_elem_of_nil.
  - rewrite fmap_cons, NoDup_cons. intros [Hx Hnd]. case_decide as Heq.
    + by rewrite <- Heq.
    + rewrite fmap_cons, not_elem_of_cons. split; [congruence | by apply IH].
Qed.

(** X3.  Removing an item from a selection sequence with pairwise distinct
    track-by values completes, leaves the item not selected and changes the
    membership of no other track-by value; when the item was not selected
    nothing changes. *)
Theorem deselectItem_removes item w :
  uniqueSelection trackBy w ->
  exists w',
    deselectItem trackBy item w = (w', Normal tt)
    /\ isSelected trackBy item w' = (w', Normal false)
    /\ (forall k, k <> trackBy item ->
          k ∈ trackByValues trackBy (selectedItemsList w')
          <-> k ∈ trackByValues trackBy (selectedItemsList w))
    /\ stacks w' = stacks w
    /\ (isSelected trackBy item w = (w, Normal false) -> w' = w).
Proof.
  intros Hw. rewrite deselectItem_eq. eexists. split; [reflexivity|].
  rewrite isSelected_eq. cbn [selectedItemsList withSelected stacks].
  split; [|split; [|split; [done|]]].
  - rewrite bool_decide_eq_false_2; [done|]. by apply removeFirst_unique_absent.
  - intros k Hk. by apply elem_of_removeFirst_other.
  - rewrite isSelected_eq. intros Hsel.
    rewrite removeFirst_absent, withSelected_same; [done|].
    eapply bool_decide_eq_false_1. congruence.
Qed.

(** X4.  Selecting an item that is not selected and then removing it gives
    back the world as it was. *)
Theorem select_then_deselect item w :
  isSelected trackBy item w = (w, Normal false) ->
  bind (selectItem trackBy item) (fun _ => deselectItem trackBy item) w
  = (w, Normal tt).
Proof.
  rewrite isSelected_eq. intros Hsel.
  assert (Hnot : trackBy item ∉ trackByValues trackBy (selectedItemsList w)).
  { eapply bool_decide_eq_false_1. congruence. }
  unfold bind. rewrite selectItem_eq, deselectItem_eq.
  cbn [selectedItemsList withSelected stacks errorLog].
  rewrite removeFirst_pushUnique_absent by done. by destruct w.
Qed.

(** ** RangeResolver *)

Lemma betweenLoop_appends sm last found sel l :
  exists added,
    betweenLoop trackBy sm last found sel l = sel ++ added
    /\ forall x, x ∈ added -> x ∈ l.
Proof.
  revert found sel. induction l as [|i l IH]; intros found sel.
  - exists []. split; [by rewrite app_nil_r | intros x Hx; inversion Hx].
  - cbn [betweenLoop].
    match goal with |- context [if ?c then _ else _] => destruct c end.
    + unfold pushUnique. case_decide.
      * destruct (IH (fst found || bool_decide (trackBy i = trackBy last),
                      snd found || bool_decide (trackBy i = trackBy sm)) sel)
          as (added & -> & Hsub).
        exists added. split; [done|]. intros x Hx. right. by apply Hsub.
      * destruct (IH (fst found || bool_decide (trackBy i = trackBy last),
                      snd found || bool_decide (trackBy i = trackBy sm)) (sel ++ [i]))
          as (added & -> & Hsub).
        exists (i :: added). split; [by rewrite <- app_assoc|].
        intros x [->|Hx]%elem_of_cons; [left | right; by apply Hsub].
    + destruct (IH (fst found || bool_decide (trackBy i = trackBy last),
                    snd found || bool_decide (trackBy i = trackBy sm)) sel)
        as (added & -> & Hsub).
      exists added. split; [done|]. intros x Hx. right. by apply Hsub.
Qed.

(** X5.  [selectItemsBetween] completes and only appends: the selection
    sequence it finds stays as the beginning of the one it leaves, what it
    adds are visible items, and the anchor stacks are not touched. *)
Theorem selectItemsBetween_only_adds visibleItems smItem lastItem w :
  exists added,
    selectItemsBetween trackBy visibleItems smItem lastItem w
    = (mkWorld (selectedItemsList w ++ added) (stacks w) (errorLog w), Normal tt)
    /\ forall x, x ∈ added -> x ∈ visibleItems.
Proof.
  rewrite selectItemsBetween_eq.
  destruct (betweenLoop_appends smItem (default smItem lastItem) (false, false)
              (selectedItemsList w) visibleItems) as (added & -> & Hsub).
  by exists added.
Qed.

Lemma betweenLoop_swap a b fa fb sel l :
  betweenLoop trackBy a b (fb, fa) sel l = betweenLoop trackBy b a (fa, fb) sel l.
Proof.
  revert fa fb sel. induction l as [|i l IH]; intros fa fb sel; [done|].
  cbn [betweenLoop fst snd]. rewrite IH. f_equal.
  rewrite (Z.add_comm (Z.b2z (fa || bool_decide (trackBy i = trackBy a)))).
  rewrite <- !orb_assoc.
  by rewrite (orb_comm (bool_decide (trackBy i = trackBy b))).
Qed.

(** X6.  The range between two items does not depend on which of them is the
    anchor and which the clicked item. *)
Theorem selectItemsBetween_symmetric visibleItems a b w :
  selectItemsBetween trackBy visibleItems a (Some b) w
  = selectItemsBetween trackBy visibleItems b (Some a) w.
Proof.
  rewrite !selectItemsBetween_eq. cbn [default from_option id].
  change (default a (Some b)) with b. change (default b (Some a)) with a.
  by rewrite betweenLoop_swap.
Qed.

Lemma betweenLoop_before sm last sel pre rest :
  trackBy sm ∉ trackByValues trackBy pre ->
  trackBy last ∉ trackByValues trackBy pre ->
  betweenLoop trackBy sm last (false, false) sel (pre ++ rest)
  = betweenLoop trackBy sm last (false, false) sel rest.
Proof.
  unfold trackByValues. induction pre as [|i pre IH]; [done|].
  rewrite fmap_cons, !not_elem_of_cons. intros [Hsm Hnsm] [Hlast Hnlast].
  rewrite <- app_comm_cons. cbn [betweenLoop fst snd].
  rewrite !bool_decide_eq_false_2 by congruence. cbn [orb Z.b2z].
  change (0 + 0 =? 1) with false. cbn [orb]. by apply IH.
Qed.

Lemma betweenLoop_inside sm last fl ft sel mid rest :
  xorb fl ft = true ->
  (fl = true -> trackBy sm ∉ trackByValues trackBy mid) ->
  (ft = true -> trackBy last ∉ trackByValues trackBy mid) ->
  betweenLoop trackBy sm last (fl, ft) sel (mid ++ rest)
  = betweenLoop trackBy sm last (fl, ft) (foldl (pushUnique trackBy) sel mid) rest.
Proof.
  unfold trackByValues. intros Hxor.
  revert sel. induction mid as [|i mid IH]; intros sel Hsm Hlast; [done|].
  rewrite <- app_comm_cons. cbn [betweenLoop fst snd foldl].
  destruct fl, ft; try discriminate Hxor.
  - specialize (Hsm eq_refl). rewrite fmap_cons, not_elem_of_cons in Hsm.
    destruct Hsm as [Hi Hsm].
    rewrite (bool_decide_eq_false_2 (trackBy i = trackBy sm)) by congruence.
    cbn [orb Z.b2z]. change (1 + 0 =? 1) with true. cbn [orb].
    apply IH; [by intros _ | intros Hf; discriminate Hf].
  - specialize (Hlast eq_refl). rewrite fmap_cons, not_elem_of_cons in Hlast.
    destruct Hlast as [Hi Hlast].
    rewrite (bool_decide_eq_false_2 (trackBy i = trackBy last)) by congruence.
    cbn [orb Z.b2z]. change (0 + 1 =? 1) with true. cbn [orb].
    apply IH; [intros Hf; discriminate Hf | by intros _].
Qed.

Lemma betweenLoop_after sm last sel post :
  trackBy sm ∉ trackByValues trackBy post ->
  trackBy last ∉ trackByValues trackBy post ->
  betweenLoop trackBy sm last (true, true) sel post = sel.
Proof.
  unfold trackByValues. induction post as [|i post IH]; [done|].
  rewrite fmap_cons, !not_elem_of_cons. intros [Hsm Hnsm] [Hlast Hnlast].
  cbn [betweenLoop fst snd].
  rewrite !bool_decide_eq_false_2 by congruence. cbn [orb Z.b2z].
  change (1 + 1 =? 1) with false. cbn [orb]. by apply IH.
Qed.

Lemma foldl_pushUnique_fresh sel l :
  NoDup (trackByValues trackBy (sel ++ l)) ->
  foldl (pushUnique trackBy) sel l = sel ++ l.
Proof.
  revert sel. induction l as [|i l IH]; intros sel Hnd; cbn [foldl].
  - by rewrite app_nil_r.
  - assert (Hi : trackBy i ∉ trackByValues trackBy sel).
    { unfold trackByValues in *. rewrite fmap_app, fmap_cons in Hnd.
      apply NoDup_app in Hnd as (_ & Hdisj & _).
      intros Hin. apply (Hdisj _ Hin). left. }
    rewrite pushUnique_absent by done.
    rewrite IH; rewrite <- app_assoc; done.
Qed.

Lemma betweenLoop_segment sm last sel pre x mid y post :
  NoDup (trackByValues trackBy (pre ++ x :: mid ++ y :: post)) ->
  trackBy last = trackBy x ->
  trackBy sm = trackBy y ->
  betweenLoop trackBy sm last (false, false) sel (pre ++ x :: mid ++ y :: post)
  = foldl (pushUnique trackBy) sel (x :: mid ++ [y]).
Proof.
  unfold trackByValues. rewrite fmap_app, fmap_cons, fmap_app, fmap_cons.
  intros Hnd Hlast Hsm.
  apply NoDup_app in Hnd as (_ & Hpre & Hnd).
  apply NoDup_cons in Hnd as (Hx & Hnd).
  apply NoDup_app in Hnd as (_ & Hmid & Hnd).
  apply NoDup_cons in Hnd as (Hy & _).
  rewrite not_elem_of_app, not_elem_of_cons in Hx. destruct Hx as (Hxmid & Hxy & Hxpost).
  assert (Hprex : trackBy x ∉ trackBy <$> pre).
  { intros Hin. apply (Hpre _ Hin). left. }
  assert (Hprey : trackBy y ∉ trackBy <$> pre).
  { intros Hin. apply (Hpre _ Hin). right. apply elem_of_app. right. left. }
  assert (Hmidy : trackBy y ∉ trackBy <$> mid).
  { intros Hin. apply (Hmid _ Hin). left. }
  rewrite betweenLoop_before by (unfold trackByValues; congruence).
  cbn [betweenLoop fst snd foldl].
  rewrite (bool_decide_eq_true_2 (trackBy x = trackBy last)) by congruence.
  rewrite (bool_decide_eq_false_2 (trackBy x = trackBy sm)) by congruence.
  cbn [orb Z.b2z]. change (1 + 0 =? 1) with true. cbn [orb].
  rewrite betweenLoop_inside;
    [| done | intros _; unfold trackByValues; congruence | intros Hf; discriminate Hf].
  cbn [betweenLoop fst snd].
  rewrite (bool_decide_eq_true_2 (trackBy y = trackBy sm)) by congruence.
  rewrite !orb_true_r. cbn [orb].
  rewrite betweenLoop_after by (unfold trackByValues; congruence).
  by rewrite foldl_app.
Qed.

(** X7.  In a visible collection of pairwise distinct track-by values that
    holds both endpoints, [selectItemsBetween] selects the items from the
    first endpoint met through the second one, both included, in display
    order, and nothing before or after them, whichever endpoint is the
    anchor; on an empty selection the result is that segment. *)
Theorem selectItemsBetween_inclusive pre x mid y post a b w :
  NoDup (trackByValues trackBy (pre ++ x :: mid ++ y :: post)) ->
  (trackBy a = trackBy x /\ trackBy b = trackBy y)
  \/ (trackBy a = trackBy y /\ trackBy b = trackBy x) ->
  selectItemsBetween trackBy (pre ++ x :: mid ++ y :: post) a (Some b) w
  = (withSelected
       (foldl (pushUnique trackBy) (selectedItemsList w) (x :: mid ++ [y])) w,
     Normal tt)
  /\ (selectedItemsList w = [] ->
      foldl (pushUnique trackBy) (selectedItemsList w) (x :: mid ++ [y])
      = x :: mid ++ [y]).
Proof.
  intros Hnd Hends. split.
  - rewrite selectItemsBetween_eq. change (default a (Some b)) with b.
    destruct Hends as [[Ha Hb]|[Ha Hb]].
    + change (false, false) with (@pair bool bool false false).
      rewrite betweenLoop_swap. by rewrite betweenLoop_segment.
    + by rewrite betweenLoop_segment.
  - intros ->. rewrite foldl_pushUnique_fresh; [done|].
    rewrite app_nil_l. unfold trackByValues in *.
    rewrite fmap_app in Hnd. apply NoDup_app in Hnd as (_ & _ & Hnd).
    rewrite fmap_cons, fmap_app, fmap_cons in Hnd.
    rewrite fmap_cons, fmap_app. cbn [fmap list_fmap].
    apply NoDup_cons in Hnd as (Hx & Hnd). apply NoDup_cons. split.
    + rewrite not_elem_of_app in Hx |- *. destruct Hx as [Hxmid Hx].
      split; [done|]. rewrite not_elem_of_cons in Hx.
      rewrite list_elem_of_singleton. tauto.
    + apply NoDup_app in Hnd as (Hmid & Hdisj & Hpost).
      apply NoDup_app. split; [done|]. split; [|apply NoDup_singleton].
      intros k Hk Hk'. apply list_elem_of_singleton in Hk' as ->.
      apply (Hdisj _ Hk). left.
Qed.

Lemma betweenLoop_open sm last sel l :
  trackBy last ∉ trackByValues trackBy l ->
  betweenLoop trackBy sm last (false, false) sel l
  = foldl (pushUnique trackBy) sel (fromFirst trackBy l sm).
Proof.
  unfold trackByValues. induction l as [|i l IH]; [done|].
  rewrite fmap_cons, not_elem_of_cons. intros [Hi Hlast].
  cbn [betweenLoop fst snd fromFirst].
  rewrite (bool_decide_eq_false_2 (trackBy i = trackBy last)) by congruence.
  destruct (decide (trackBy i = trackBy sm)) as [Hsm|Hsm].
  - rewrite bool_decide_eq_true_2 by done. cbn [orb Z.b2z foldl].
    change (0 + 1 =? 1) with true. cbn [orb].
    rewrite <- (app_nil_r l) at 1.
    rewrite betweenLoop_inside;
      [done | done | intros Hf; discriminate Hf | by intros _].
  - rewrite bool_decide_eq_false_2 by done. cbn [orb Z.b2z].
    change (0 + 0 =? 1) with false. cbn [orb]. by apply IH.
Qed.

(** X8.  When the anchor is not among the visible items (it was filtered
    out or removed), the range does not close: [selectItemsBetween] selects
    every visible item from the clicked one through the last. *)
Theorem selectItemsBetween_anchor_not_visible visibleItems smItem anchor w :
  trackBy anchor ∉ trackByValues trackBy visibleItems ->
  selectItemsBetween trackBy visibleItems smItem (Some anchor) w
  = (withSelected
       (foldl (pushUnique trackBy) (selectedItemsList w)
          (fromFirst trackBy visibleItems smItem)) w,
     Normal tt).
Proof.
  intros Hanchor. rewrite selectItemsBetween_eq.
  change (default smItem (Some anchor)) with anchor.
  by rewrite betweenLoop_open.
Qed.

(** ** [deselectAllItemsExcept] *)

Ltac run_loops :=
  repeat first
    [ rewrite decide_True by congruence
    | rewrite decide_False by congruence
    | rewrite bool_decide_eq_true_2 by congruence
    | rewrite bool_decide_eq_false_2 by congruence
    | rewrite pushUnique_nil
    | progress unfold indexOfTrackBy
    | progress cbn [deselectLoop decideSelect indexOfTrackBy_from
                    exceptArray numItemsFound doSelect removeFirst
                    fst snd delete list_delete foldl fromFirst]
    | progress change (Z.to_nat 0) with 0%nat
    | progress change (Z.to_nat (0 + 1)) with 1%nat
    | progress change (-1 <? 0) with true
    | progress change (-1 <? 0 + 1) with true
    | progress change (-1 <? -1) with false
    | progress change (0 + 1) with 1
    | progress change (1 + 1) with 2
    | progress change (1 =? 0) with false
    | progress change (1 =? 1) with true
    | progress change (1 =? 2) with false ].

Lemma fromFirst_head_elem l x y rest :
  fromFirst trackBy l x = y :: rest -> y ∈ l.
Proof.
  induction l as [|z l IH]; cbn [fromFirst]; [discriminate|].
  case_decide.
  - intros [= -> _]. left.
  - intros Hfrom. right. by apply IH.
Qed.

(** X9.  [deselectAllItemsExcept(item)] completes, never touches the anchor
    stacks, and leaves selected the first item of the full collection with the
    track-by value of [item], and only it; when the full collection has no
    such item, the selection is left empty. *)
Theorem deselectAllItemsExcept_single_item allItems x w :
  exists v,
    deselectAllItemsExcept trackBy allItems (ExceptItem x) w
    = (mkWorld (take 1 (fromFirst trackBy allItems x)) (stacks w) (errorLog w),
       Normal v)
    /\ (trackBy x ∉ trackByValues trackBy allItems ->
        take 1 (fromFirst trackBy allItems x) = [])
    /\ (trackBy x ∈ trackByValues trackBy allItems ->
        exists y, take 1 (fromFirst trackBy allItems x) = [y]
                  /\ trackBy y = trackBy x /\ y ∈ allItems).
Proof.
  destruct (deselectAllItemsExcept_item trackBy allItems x w) as [v Hv].
  exists v. split; [exact Hv|]. split.
  - intros Hnot. by rewrite fromFirst_absent.
  - intros Hin.
    destruct (fromFirst_present trackBy allItems x Hin) as (y & rest & Hfrom & Hy).
    exists y. rewrite Hfrom. split; [done|]. split; [done|].
    by eapply fromFirst_head_elem.
Qed.

Lemma deselectLoop_app except vars sel l1 l2 :
  deselectLoop trackBy except vars sel (l1 ++ l2)
  = match deselectLoop trackBy except vars sel l1 with
    | (sel', Normal vars') => deselectLoop trackBy except vars' sel' l2
    | (sel', Throw e) => (sel', Throw e)
    end.
Proof.
  revert vars sel. induction l1 as [|i l1 IH]; intros vars sel; [done|].
  rewrite <- app_comm_cons. cbn [deselectLoop].
  destruct (decideSelect trackBy except vars i) as [vars'|e]; [apply IH | done].
Qed.

Lemma deselectLoop_range_before a b ds pre :
  trackBy a ∉ trackByValues trackBy pre ->
  trackBy b ∉ trackByValues trackBy pre ->
  exists ds',
    deselectLoop trackBy (ExceptRange (Some a) (Some b))
      (mkExceptVars [Some a; Some b] 0 ds) [] pre
    = ([], Normal (mkExceptVars [Some a; Some b] 0 ds')).
Proof.
  unfold trackByValues. revert ds. induction pre as [|i pre IH]; intros ds.
  - by exists ds.
  - rewrite fmap_cons, !not_elem_of_cons. intros [Ha Hna] [Hb Hnb].
    run_loops. by apply IH.
Qed.

Lemma deselectLoop_range_closed a b n ds sel post :
  n <> 1 ->
  (forall i, i ∈ post -> trackBy i ∉ trackByValues trackBy sel) ->
  exists ds',
    deselectLoop trackBy (ExceptRange a b) (mkExceptVars [] n ds) sel post
    = (sel, Normal (mkExceptVars [] n ds')).
Proof.
  intros Hn. revert ds. induction post as [|i post IH]; intros ds Hpost.
  - by exists ds.
  - run_loops.
    replace (1 =? n) with false by (symmetry; apply Z.eqb_neq; lia).
    rewrite removeFirst_absent by (apply Hpost; left).
    apply IH. intros j Hj. apply Hpost. by right.
Qed.

Lemma deselectLoop_range_segment a b ds pre x mid y post :
  NoDup (trackByValues trackBy (pre ++ x :: mid ++ y :: post)) ->
  (trackBy a = trackBy x /\ trackBy b = trackBy y)
  \/ (trackBy a = trackBy y /\ trackBy b = trackBy x) ->
  exists ds',
    deselectLoop trackBy (ExceptRange (Some a) (Some b))
      (mkExceptVars [Some a; Some b] 0 ds) [] (pre ++ x :: mid ++ y :: post)
    = (x :: mid ++ [y], Normal (mkExceptVars [] 2 ds')).
Proof.
  unfold trackByValues. rewrite fmap_app, fmap_cons, fmap_app, fmap_cons.
  intros Hnd Hends.
  apply NoDup_app in Hnd as (_ & Hpre & Hnd).
  pose proof Hnd as Hseg.
  apply NoDup_cons in Hnd as (Hx & Hnd).
  apply NoDup_app in Hnd as (_ & Hmid & Hnd).
  apply NoDup_cons in Hnd as (Hy & _).
  rewrite not_elem_of_app, not_elem_of_cons in Hx. destruct Hx as (Hxmid & Hxy & Hxpost).
  assert (Hprex : trackBy x ∉ trackBy <$> pre).
  { intros Hin. apply (Hpre _ Hin). left. }
  assert (Hprey : trackBy y ∉ trackBy <$> pre).
  { intros Hin. apply (Hpre _ Hin). right. apply elem_of_app. right. left. }
  assert (Hmidy : trackBy y ∉ trackBy <$> mid).
  { intros Hin. apply (Hmid _ Hin). left. }
  assert (Hfresh : foldl (pushUnique trackBy) [x] mid = x :: mid).
  { rewrite foldl_pushUnique_fresh; [done|]. unfold trackByValues.
    cbn [app]. rewrite fmap_cons. apply NoDup_cons. split; [done|].
    apply NoDup_cons in Hseg as (_ & Hseg).
    by apply NoDup_app in Hseg as (? & _). }
  assert (Hsel : foldl (pushUnique trackBy) [x] mid ++ [y] = x :: mid ++ [y])
    by by rewrite Hfresh.
  assert (Hafter : forall i, i ∈ post ->
            trackBy i ∉ trackByValues trackBy (x :: mid ++ [y])).
  { intros i Hi. unfold trackByValues.
    rewrite fmap_cons, fmap_app, not_elem_of_cons, not_elem_of_app.
    cbn [fmap list_fmap]. rewrite list_elem_of_singleton.
    assert (Hki : trackBy i ∈ trackBy <$> post) by by apply list_elem_of_fmap_2.
    split; [intros Heq; apply Hxpost; by rewrite <- Heq|].
    split; [|intros Heq; apply Hy; by rewrite <- Heq].
    intros Hin. apply (Hmid _ Hin). by right. }
  assert (Hy' : trackBy y ∉ trackByValues trackBy (foldl (pushUnique trackBy) [x] mid)).
  { rewrite Hfresh. unfold trackByValues. rewrite fmap_cons, not_elem_of_cons.
    split; [congruence | done]. }
  rewrite deselectLoop_app.
  destruct Hends as [[Ha Hb]|[Ha Hb]].
  - destruct (deselectLoop_range_before a b ds pre) as [ds0 ->];
      [unfold trackByValues; congruence..|].
    run_loops. rewrite deselectLoop_app.
    destruct (deselectLoop_range_open trackBy (Some a) (Some b) b true [x] mid)
      as [ds1 ->]; [unfold trackByValues; congruence|].
    run_loops. rewrite pushUnique_absent by done. rewrite Hsel.
    destruct (deselectLoop_range_closed (Some a) (Some b) 2 true (x :: mid ++ [y]) post)
      as [ds2 ->]; [lia | done | by exists ds2].
  - destruct (deselectLoop_range_before a b ds pre) as [ds0 ->];
      [unfold trackByValues; congruence..|].
    run_loops. rewrite deselectLoop_app.
    destruct (deselectLoop_range_open trackBy (Some a) (Some b) a true [x] mid)
      as [ds1 ->]; [unfold trackByValues; congruence|].
    run_loops. rewrite pushUnique_absent by done. rewrite Hsel.
    destruct (deselectLoop_range_closed (Some a) (Some b) 2 true (x :: mid ++ [y]) post)
      as [ds2 ->]; [lia | done | by exists ds2].
Qed.

(** X10.  For a full collection of pairwise distinct track-by values that
    holds both endpoints of the pair, [deselectAllItemsExcept([a, b])]
    completes and leaves selected exactly the items from the first endpoint
    met through the second, both included, in the order of the collection,
    whichever way round the pair is given; both endpoints are counted and the
    caller's array is left empty. *)
Theorem deselectAllItemsExcept_range_inclusive pre x mid y post a b w :
  NoDup (trackByValues trackBy (pre ++ x :: mid ++ y :: post)) ->
  (trackBy a = trackBy x /\ trackBy b = trackBy y)
  \/ (trackBy a = trackBy y /\ trackBy b = trackBy x) ->
  exists v,
    deselectAllItemsExcept trackBy (pre ++ x :: mid ++ y :: post)
      (ExceptRange (Some a) (Some b)) w
    = (mkWorld (x :: mid ++ [y]) (stacks w) (errorLog w), Normal v)
    /\ exceptArray v = [] /\ numItemsFound v = 2.
Proof.
  intros Hnd Hends. rewrite deselectAllItemsExcept_eq.
  change (initialExceptVars (ExceptRange (Some a) (Some b)))
    with (mkExceptVars [Some a; Some b] 0 true).
  destruct (deselectLoop_range_segment a b true pre x mid y post Hnd Hends)
    as [ds' ->].
  by eexists.
Qed.

(** X11.  A pair whose two endpoints have the same track-by value (what the
    click handler passes on a shift-click on the anchor itself) opens a range
    that nothing closes: over a full collection of pairwise distinct track-by
    values, every item from the one with that value through the last is left
    selected. *)
Theorem deselectAllItemsExcept_equal_endpoints allItems a b w :
  trackBy a = trackBy b ->
  NoDup (trackByValues trackBy allItems) ->
  exists v,
    deselectAllItemsExcept trackBy allItems (ExceptRange (Some a) (Some b)) w
    = (mkWorld (fromFirst trackBy allItems a) (stacks w) (errorLog w), Normal v).
Proof.
  intros Hab Hnd. rewrite deselectAllItemsExcept_eq.
  change (initialExceptVars (ExceptRange (Some a) (Some b)))
    with (mkExceptVars [Some a; Some b] 0 true).
  generalize true as ds. unfold trackByValues in Hnd.
  induction allItems as [|i l IH]; intros ds; [by eexists|].
  rewrite fmap_cons in Hnd. apply NoDup_cons in Hnd as [Hi Hnd].
  destruct (decide (trackBy i = trackBy a)) as [Hia|Hia].
  - run_loops.
    destruct (deselectLoop_range_open trackBy (Some a) (Some b) b true [i] l)
      as [ds' ->]; [unfold trackByValues; congruence|].
    rewrite foldl_pushUnique_fresh; [by eexists|].
    unfold trackByValues. cbn [app]. rewrite fmap_cons. by apply NoDup_cons.
  - run_loops. by apply IH.
Qed.

(** X12.  A pair whose second endpoint is [undefined] (what the click handler
    passes while nothing was pushed on the anchor stack) makes
    [deselectAllItemsExcept] throw a [TypeError] as soon as the full
    collection has an item that is not its first item matching the defined
    endpoint; the selection sequence is already cleared then, and holds at
    most that first item. *)
Theorem deselectAllItemsExcept_undefined_endpoint allItems sm w :
  (2 <= length allItems)%nat
  \/ (exists i, allItems = [i] /\ trackBy i <> trackBy sm) ->
  exists sel',
    deselectAllItemsExcept trackBy allItems (ExceptRange (Some sm) None) w
    = (mkWorld sel' (stacks w) (errorLog w), Throw TypeError)
    /\ (sel' = [] \/ exists i, head allItems = Some i /\ sel' = [i]
                               /\ trackBy i = trackBy sm).
Proof.
  intros Hshape. rewrite deselectAllItemsExcept_eq.
  change (initialExceptVars (ExceptRange (Some sm) None))
    with (mkExceptVars [Some sm; None] 0 true).
  destruct allItems as [|i [|j l]].
  - destruct Hshape as [Hlen | (i & Hi & _)]; [simpl in Hlen; lia | discriminate Hi].
  - destruct Hshape as [Hlen | (i' & Hi & Hne)]; [simpl in Hlen; lia|].
    injection Hi as <-. run_loops. eexists. split; [reflexivity | by left].
  - destruct (decide (trackBy sm = trackBy i)); run_loops;
      (eexists; split; [reflexivity|]); [right | by left].
    exists i. by repeat split.
Qed.

(** ** ClickInterpreter *)




(** X15.  A shift-click with ctrl or meta (or in an additive mode) in multi
    mode extends the selection: the handler completes, every entry selected
    before stays, in place, what is added are visible items, the clicked item
    is selected when it is visible, and neither the anchor stacks nor the
    error log change. *)
Theorem additive_range_click_keeps_the_selection d event w :
  isAdditiveRangeClick d event = true ->
  exists added,
    handleClick trackBy d event w
    = (mkWorld (selectedItemsList w ++ added) (stacks w) (errorLog w),
       Normal (markClickHandled event))
    /\ (forall x, x ∈ added -> x ∈ visibleItems d)
    /\ (trackBy (smItem d) ∈ trackByValues trackBy (visibleItems d) ->
        trackBy (smItem d) ∈ trackByValues trackBy (selectedItemsList w ++ added)).
Proof.
  unfold isAdditiveRangeClick. intros Hclick.
  apply andb_true_iff in Hclick as [Hclick Hctrl].
  apply andb_true_iff in Hclick as [Hproc Hrange].
  rewrite handleClick_range by done. cbv zeta. rewrite Hctrl.
  pose proof (betweenLoop_clicked trackBy (smItem d)
                (default (smItem d) (stacks w !! clickStackId d ≫= head))
                (false, false) (selectedItemsList w) (visibleItems d)) as Hclicked.
  destruct (betweenLoop_appends (smItem d)
              (default (smItem d) (stacks w !! clickStackId d ≫= head))
              (false, false) (selectedItemsList w) (visibleItems d))
    as (added & Heq & Hsub).
  rewrite Heq in Hclicked |- *. by exists added.
Qed.

Lemma foldl_pushUnique_present sel l :
  (forall i, i ∈ l -> trackBy i ∈ trackByValues trackBy sel) ->
  foldl (pushUnique trackBy) sel l = sel.
Proof.
  induction l as [|i l IH]; intros Hl; cbn [foldl]; [done|].
  rewrite pushUnique_present by (apply Hl; left).
  apply IH. intros j Hj. apply Hl. by right.
Qed.

(** X16.  A shift-click without ctrl or meta in mode [multi], where nothing
    is filtered (full and visible collection are the same list, of pairwise
    distinct track-by values) and the anchor of the group and the clicked item
    are two of its items: the selection becomes exactly the items from the
    one that comes first through the other, both included, in display order,
    whatever was selected before and whichever of the two comes first; the
    anchor stays. *)
Theorem shift_click_replaces_selection_by_range d event w pre x mid y post anchor :
  isShiftClick d event = true ->
  isModeAdditive d = false ->
  allItems d = pre ++ x :: mid ++ y :: post ->
  visibleItems d = pre ++ x :: mid ++ y :: post ->
  NoDup (trackByValues trackBy (pre ++ x :: mid ++ y :: post)) ->
  selectionStack_peek (clickStackId d) w = (w, Normal (Some anchor)) ->
  (trackBy anchor = trackBy x /\ trackBy (smItem d) = trackBy y)
  \/ (trackBy anchor = trackBy y /\ trackBy (smItem d) = trackBy x) ->
  handleClick trackBy d event w
  = (mkWorld (x :: mid ++ [y]) (stacks w) (errorLog w),
     Normal (markClickHandled event)).
Proof.
  unfold isShiftClick, selectionStack_peek.
  intros Hclick Hadd Hall Hvis Hnd Hpeek Hends.
  apply andb_true_iff in Hclick as [Hclick Hkeys].
  apply andb_true_iff in Hclick as [Hproc Hrange].
  apply negb_true_iff in Hkeys.
  assert (stacks w !! clickStackId d ≫= head = Some anchor) as Hlast by congruence.
  rewrite handleClick_range by done. cbv zeta.
  unfold isCtrlKeyDown. rewrite Hkeys, Hadd, Hlast, Hall, Hvis. cbn [orb].
  change (default (smItem d) (Some anchor)) with anchor.
  change (initialExceptVars (ExceptRange (Some (smItem d)) (Some anchor)))
    with (mkExceptVars [Some (smItem d); Some anchor] 0 true).
  destruct (deselectLoop_range_segment (smItem d) anchor true pre x mid y post Hnd)
    as [ds' ->]; [tauto|].
  cbn [fst snd].
  assert (Hsame : foldl (pushUnique trackBy) (x :: mid ++ [y]) (x :: mid ++ [y])
                  = x :: mid ++ [y]).
  { apply foldl_pushUnique_present. intros i Hi. by apply list_elem_of_fmap_2. }
  destruct Hends as [[Ha Hs]|[Ha Hs]].
  - by rewrite betweenLoop_segment, Hsame.
  - change (false, false) with (@pair bool bool false false).
    by rewrite betweenLoop_swap, betweenLoop_segment, Hsame.
Qed.

(** X17.  In multi mode a toggle click (ctrl, meta, an additive mode, or a
    click on a checkbox) changes the membership of the clicked item only: on
    a selection with pairwise distinct track-by values the clicked item
    changes sides, every other track-by value stays selected or not as it
    was, and the error log is untouched. *)
Theorem multi_mode_toggle_changes_only_the_clicked_item d event w :
  isMultiMode d = true ->
  isProcessed d event = true ->
  isToggleClick d event = true ->
  uniqueSelection trackBy w ->
  exists w',
    handleClick trackBy d event w = (w', Normal (markClickHandled event))
    /\ isSelected trackBy (smItem d) w'
       = (w', Normal (negb (bool_decide
            (trackBy (smItem d) ∈ trackByValues trackBy (selectedItemsList w)))))
    /\ (forall k, k <> trackBy (smItem d) ->
          k ∈ trackByValues trackBy (selectedItemsList w')
          <-> k ∈ trackByValues trackBy (selectedItemsList w))
    /\ errorLog w' = errorLog w.
Proof.
  intros Hmulti Hproc Htoggle Hw.
  rewrite handleClick_toggle by done. cbv zeta. rewrite Hmulti.
  case_bool_decide as Hsel; eexists; (split; [reflexivity|]);
    rewrite isSelected_eq; cbn [selectedItemsList errorLog negb];
    (split; [|split; [|done]]).
  - rewrite bool_decide_eq_false_2; [done|]. by apply removeFirst_unique_absent.
  - intros k Hk. by apply elem_of_removeFirst_other.
  - rewrite bool_decide_eq_true_2; [done|]. apply elem_of_pushUnique. by right.
  - intros k Hk. rewrite elem_of_pushUnique. split; [intros [?|?]; done | by left].
Qed.

Lemma handleClick_world_by_branch d event event' w :
  isProcessed d event = isProcessed d event' ->
  isRangeClick d event = isRangeClick d event' ->
  isToggleClick d event = isToggleClick d event' ->
  (isRangeClick d event = true -> isCtrlKeyDown d event = isCtrlKeyDown d event') ->
  (handleClick trackBy d event w).1 = (handleClick trackBy d event' w).1.
Proof.
  intros Hproc Hrange Htoggle Hctrl.
  destruct (isProcessed d event) eqn:Hp.
  - destruct (isRangeClick d event) eqn:Hr.
    + rewrite !handleClick_range by done. cbv zeta.
      by rewrite (Hctrl eq_refl).
    + destruct (isToggleClick d event) eqn:Ht.
      * rewrite !handleClick_toggle by done. cbv zeta. by case_bool_decide.
      * by rewrite !handleClick_plain by done.
  - by rewrite !handleClick_skipped by done.
Qed.

(** X18.  An additive mode turns every click into a ctrl-click: the world a
    click leaves is the one the same click with the ctrl key down leaves. *)
Theorem additive_mode_is_ctrl_always d event w :
  isModeAdditive d = true ->
  (handleClick trackBy d event w).1
  = (handleClick trackBy d
       (withModifiers true (metaKey event) (shiftKey event) event) w).1.
Proof.
  intros Hadd. apply handleClick_world_by_branch; try reflexivity.
  - unfold isToggleClick, isCtrlKeyDown. rewrite Hadd.
    cbn [withModifiers ctrlKey metaKey shiftKey]. by rewrite !orb_true_r.
  - intros _. unfold isCtrlKeyDown. rewrite Hadd.
    cbn [withModifiers ctrlKey metaKey]. by rewrite !orb_true_r.
Qed.

(** X19.  Outside of multi mode shift behaves like ctrl: the world a
    shift-click leaves is the one a ctrl-click on the same row leaves. *)
Theorem single_mode_shift_is_ctrl d event w :
  isMultiMode d = false ->
  shiftKey event = true ->
  (handleClick trackBy d event w).1
  = (handleClick trackBy d (withModifiers true (metaKey event) false event) w).1.
Proof.
  intros Hsingle Hshift.
  assert (Hrange : forall e, isRangeClick d e = false).
  { intros e. unfold isRangeClick. rewrite Hsingle. by rewrite andb_false_r. }
  apply handleClick_world_by_branch; try reflexivity.
  - by rewrite !Hrange.
  - unfold isToggleClick. rewrite !Hrange, Hshift. cbn [negb andb].
    unfold isCtrlKeyDown. cbn [withModifiers ctrlKey]. by rewrite !orb_true_r.
  - rewrite Hrange. discriminate.
Qed.

(** X20.  However a click ends, and whatever the host's [$exceptionHandler]
    does, the click changes the anchor stacks only by pushing its own item on
    the stack of its own group, and only when that item is selected
    afterwards. *)
Theorem click_pushes_only_its_own_item handler d event w :
  let w' := (handleClickWith trackBy handler d event w).1 in
  stacks w' = stacks w
  \/ (stacks w' = pushed (clickStackId d) (smItem d) (stacks w)
      /\ trackBy (smItem d) ∈ trackByValues trackBy (selectedItemsList w')).
Proof.
  cbv zeta. destruct (isProcessed d event) eqn:Hproc.
  - destruct (isRangeClick d event) eqn:Hrange.
    + rewrite handleClickWith_range by done. cbv zeta. left.
      destruct (isCtrlKeyDown d event); [done|].
      by destruct (deselectLoop trackBy _ _ [] (allItems d)) as [sel1 [v|e]],
        handler.
    + destruct (isToggleClick d event) eqn:Htoggle.
      * rewrite handleClickWith_toggle by done. cbv zeta.
        case_bool_decide; cbn [fst stacks selectedItemsList]; [by left | right].
        split; [done|]. apply elem_of_pushUnique. by right.
      * rewrite handleClickWith_plain by done.
        cbn [fst stacks selectedItemsList]. right.
        split; [done|]. apply elem_of_pushUnique. by right.
  - rewrite handleClickWith_skipped by done. by left.
Qed.

(** X21.  A click on a label is left to the input that goes with it: when
    the label's [for] names an [INPUT] under the directive's element, or when
    the label has no [for] and holds an input, the handler changes nothing in
    the world, and marks the event as handled. *)
Theorem label_click_is_left_to_its_input d event w :
  isIgnored event = false ->
  isClickHandled event = false ->
  tagName (target event) = "LABEL"%string ->
  (exists labelFor, forAttr (target event) = Some labelFor
                    /\ labelFor <> ""%string /\ In labelFor (childInputIds d))
  \/ (isTruthyAttr (forAttr (target event)) = false
      /\ (0 < nestedInputs (target event))%nat) ->
  handleClick trackBy d event w = (w, Normal (markClickHandled event)).
Proof.
  intros Hign Hhandled Htag Hlabel.
  rewrite handleClick_skipped.
  - by rewrite Hign, Hhandled.
  - unfold isProcessed, isLabelOfNearbyInput. rewrite Hign, Hhandled, Htag.
    cbn [negb andb]. rewrite String.eqb_refl.
    destruct Hlabel as [(labelFor & -> & Hne & Hin) | [Hfalsy Hnested]].
    + apply String.eqb_neq in Hne. rewrite Hne. apply negb_false_iff.
      apply existsb_exists. exists labelFor. split; [done | apply String.eqb_refl].
    + apply Nat.ltb_lt in Hnested. unfold isTruthyAttr in Hfalsy.
      destruct (forAttr (target event)) as [f|]; [|by rewrite Hnested].
      apply negb_false_iff in Hfalsy. by rewrite Hfalsy, Hnested.
Qed.

(** ** Programmatic change reconciliation *)

(** X22.  When the selected attribute of an item changes, the watcher brings
    the selection sequence in line with it: on a selection with pairwise
    distinct track-by values it completes, the item is selected afterwards
    exactly when the new value is truthy, the anchor stacks are untouched,
    and in multi mode no other track-by value changes sides. *)
Theorem watcher_reconciles_the_selection d newVal oldVal w :
  newVal <> oldVal ->
  uniqueSelection trackBy w ->
  exists w',
    selectedAttributeWatcher trackBy d newVal oldVal w = (w', Normal tt)
    /\ isSelected trackBy (smItem d) w' = (w', Normal (truthy newVal))
    /\ stacks w' = stacks w
    /\ (isMultiMode d = true ->
        forall k, k <> trackBy (smItem d) ->
          k ∈ trackByValues trackBy (selectedItemsList w')
          <-> k ∈ trackByValues trackBy (selectedItemsList w)).
Proof.
  intros Hchange Hw. unfold selectedAttributeWatcher.
  rewrite bool_decide_eq_true_2 by done.
  assert (Htruthy : truthy newVal = true -> truthy oldVal = false).
  { destruct newVal as [[]|], oldVal as [[]|]; cbn; congruence. }
  unfold bind at 1.
  destruct (truthy newVal) eqn:Hnew.
  - rewrite (Htruthy eq_refl). rewrite andb_true_r.
    destruct (isMultiMode d) eqn:Hmulti; cbn [negb andb].
    + unfold ret at 1. rewrite selectItem_eq. eexists. split; [reflexivity|].
      rewrite isSelected_eq. cbn [selectedItemsList withSelected stacks].
      split; [|split; [done|]].
      * rewrite bool_decide_eq_true_2; [done|]. apply elem_of_pushUnique. by right.
      * intros _ k Hk. rewrite elem_of_pushUnique.
        split; [intros [?|?]; done | by left].
    + unfold bind at 1.
      destruct (deselectAllItemsExcept_item trackBy (allItems d) (smItem d) w)
        as [v ->].
      unfold ret at 1. rewrite selectItem_eq. eexists. split; [reflexivity|].
      rewrite isSelected_eq. cbn [selectedItemsList withSelected stacks].
      split; [|split; [done | discriminate]].
      rewrite bool_decide_eq_true_2; [done|]. apply elem_of_pushUnique. by right.
  - rewrite andb_false_r. cbn [andb]. unfold ret at 1.
    rewrite deselectItem_eq. eexists. split; [reflexivity|].
    rewrite isSelected_eq. cbn [selectedItemsList withSelected stacks].
    split; [|split; [done|]].
    + rewrite bool_decide_eq_false_2; [done|]. by apply removeFirst_unique_absent.
    + intros _ k Hk. by apply elem_of_removeFirst_other.
Qed.

End MoreProperties.

(** ** Linking a directive instance *)

(** X23.  Rows under one parent share their last-click stack: when the
    elements of two rows carry no id of their own, and the parent has one or
    the generator returns a non-empty id, the row linked second resolves the
    id the first one resolved, without using a new one; each row caches it on
    its element, and resolving again from there gives it back. *)
Theorem sibling_rows_share_the_stack_id uuid1 uuid2 uuid3 element1 element2 parent :
  isTruthyAttr element1 = false ->
  isTruthyAttr element2 = false ->
  isTruthyAttr parent = true \/ uuid1 <> ""%string ->
  let first := resolveClickStackId true uuid1 (mkStackIdAttrs element1 parent) in
  let second :=
    resolveClickStackId true uuid2
      (mkStackIdAttrs element2 (parentStackId first.2)) in
  second.1 = first.1
  /\ parentStackId second.2 = parentStackId first.2
  /\ elementStackId first.2 = first.1
  /\ elementStackId second.2 = first.1
  /\ resolveClickStackId true uuid3 first.2 = first.
Proof.
  intros He1 He2 Hid. cbv zeta. unfold resolveClickStackId.
  cbn [negb elementStackId parentStackId]. rewrite He1.
  destruct (isTruthyAttr parent) eqn:Hp.
  - cbn [fst snd elementStackId parentStackId]. by rewrite He2, !Hp.
  - destruct Hid as [Hid|Hid]; [discriminate Hid|].
    assert (Hu : isTruthyAttr (Some uuid1) = true).
    { cbn. apply negb_true_iff. by apply String.eqb_neq. }
    cbn [fst snd elementStackId parentStackId]. by rewrite He2, !Hu.
Qed.

(** X24.  The expression [getAllItems] evaluates is the collection expression
    cut at its first [|] or [=]: an expression that has neither is evaluated
    as it is, and from [a | f] or [a = f], with neither character in [a],
    only [a] is left. *)
Theorem stripFilters_cuts_at_the_first_separator :
  (forall expression,
     hasFilterSeparator expression = false -> stripFilters expression = expression)
  /\ (forall a separator rest,
        hasFilterSeparator a = false ->
        isFilterSeparator separator = true ->
        stripFilters (a ++ String separator rest)%string = a)
  /\ (forall expression, hasFilterSeparator (stripFilters expression) = false).
Proof.
  split; [|split].
  - induction expression as [|c e IH]; cbn [hasFilterSeparator stripFilters]; [done|].
    intros [Hc He]%orb_false_iff. rewrite Hc. by rewrite IH.
  - induction a as [|c a IH]; simpl; intros separator rest.
    + intros _ Hsep. by rewrite Hsep.
    + intros [Hc Ha]%orb_false_iff Hsep. rewrite Hc. by rewrite IH.
  - induction expression as [|c e IH]; cbn [hasFilterSeparator stripFilters]; [done|].
    destruct (isFilterSeparator c) eqn:Hc; cbn [hasFilterSeparator]; [done|].
    by rewrite Hc.
Qed.

(** X25.  The value of an option: a truthy attribute on the element wins;
    otherwise it is the value given by the last call of [set] that mentions
    the option, and the built-in default when no call does. *)
Theorem option_precedence key :
  (forall v default, v <> ""%string ->
     OptionsProvider.attributeOr (Some v) default = Some v)
  /\ (forall default,
        OptionsProvider.attributeOr None default = default
        /\ OptionsProvider.attributeOr (Some ""%string) default = default)
  /\ (forall before userOpts after v,
        userOpts !! key = Some v ->
        (forall later, later ∈ after -> later !! key = None) ->
        OptionsProvider.get
          (OptionsProvider.configure (before ++ userOpts :: after)) !! key
        = Some v)
  /\ (forall calls,
        (forall userOpts, userOpts ∈ calls -> userOpts !! key = None) ->
        OptionsProvider.get (OptionsProvider.configure calls) !! key
        = OptionsProvider.options !! key).
Proof.
  assert (Hlater : forall (after : list (gmap string string)) current,
            (forall later, later ∈ after -> later !! key = None) ->
            foldl (fun current userOpts => OptionsProvider.set userOpts current)
              current after !! key
            = current !! key).
  { induction after as [|u after IH]; intros current Hafter; cbn [foldl]; [done|].
    rewrite IH by (intros later Hl; apply Hafter; by right).
    unfold OptionsProvider.set. rewrite lookup_union_r; [done|].
    apply Hafter. left. }
  split; [|split; [|split]].
  - intros v default Hv. unfold OptionsProvider.attributeOr.
    apply String.eqb_neq in Hv. by rewrite Hv.
  - by intros default.
  - intros before userOpts after v Hv Hafter.
    unfold OptionsProvider.get, OptionsProvider.configure.
    rewrite foldl_app. cbn [foldl]. rewrite Hlater by done.
    unfold OptionsProvider.set at 1. by rewrite lookup_union_l'.
  - intros calls Hcalls. unfold OptionsProvider.get, OptionsProvider.configure.
    by apply Hlater.
Qed.

(** ** The properties on the rows of the scenario *)

Import Rows.

Lemma deselectItem_removes_witness :
  exists w',
    deselectItem id (mkIdItem 2) anchoredAt2 = (w', Normal tt)
    /\ isSelected id (mkIdItem 2) w' = (w', Normal false)
    /\ (forall k, k <> id (mkIdItem 2) ->
          k ∈ trackByValues id (selectedItemsList w')
          <-> k ∈ trackByValues id (selectedItemsList anchoredAt2))
    /\ stacks w' = stacks anchoredAt2
    /\ (isSelected id (mkIdItem 2) anchoredAt2 = (anchoredAt2, Normal false) ->
        w' = anchoredAt2).
Proof.
  apply (deselectItem_removes id (mkIdItem 2) anchoredAt2).
  by_computation.
Defined.

Lemma select_then_deselect_witness :
  bind (selectItem id (mkIdItem 3)) (fun _ => deselectItem id (mkIdItem 3)) anchoredAt2
  = (anchoredAt2, Normal tt).
Proof.
  apply (select_then_deselect id (mkIdItem 3) anchoredAt2).
  vm_compute. reflexivity.
Defined.

Lemma selectItemsBetween_inclusive_witness :
  selectItemsBetween id ([mkIdItem 1] ++ mkIdItem 2 :: [mkIdItem 3] ++ mkIdItem 4 :: [])
    (mkIdItem 4) (Some (mkIdItem 2)) emptyWorld
  = (withSelected
       (foldl (pushUnique id) (selectedItemsList emptyWorld)
          (mkIdItem 2 :: [mkIdItem 3] ++ [mkIdItem 4])) emptyWorld,
     Normal tt)
  /\ (selectedItemsList emptyWorld = [] ->
      foldl (pushUnique id) (selectedItemsList emptyWorld)
        (mkIdItem 2 :: [mkIdItem 3] ++ [mkIdItem 4])
      = mkIdItem 2 :: [mkIdItem 3] ++ [mkIdItem 4]).
Proof.
  apply (selectItemsBetween_inclusive id [mkIdItem 1] (mkIdItem 2) [mkIdItem 3]
           (mkIdItem 4) [] (mkIdItem 4) (mkIdItem 2) emptyWorld).
  - by_computation.
  - right. split; reflexivity.
Defined.

Lemma selectItemsBetween_anchor_not_visible_witness :
  selectItemsBetween id fullCollection (mkIdItem 3) (Some (mkIdItem 9)) emptyWorld
  = (withSelected
       (foldl (pushUnique id) (selectedItemsList emptyWorld)
          (fromFirst id fullCollection (mkIdItem 3))) emptyWorld,
     Normal tt).
Proof.
  apply (selectItemsBetween_anchor_not_visible id fullCollection (mkIdItem 3)
           (mkIdItem 9) emptyWorld).
  by_computation.
Defined.

Lemma deselectAllItemsExcept_range_inclusive_witness :
  exists v,
    deselectAllItemsExcept id
      ([mkIdItem 1] ++ mkIdItem 2 :: [mkIdItem 3] ++ mkIdItem 4 :: [])
      (ExceptRange (Some (mkIdItem 4)) (Some (mkIdItem 2))) anchoredAt2
    = (mkWorld (mkIdItem 2 :: [mkIdItem 3] ++ [mkIdItem 4]) (stacks anchoredAt2)
         (errorLog anchoredAt2), Normal v)
    /\ exceptArray v = [] /\ numItemsFound v = 2.
Proof.
  apply (deselectAllItemsExcept_range_inclusive id [mkIdItem 1] (mkIdItem 2)
           [mkIdItem 3] (mkIdItem 4) [] (mkIdItem 4) (mkIdItem 2) anchoredAt2).
  - by_computation.
  - right. split; reflexivity.
Defined.

Lemma deselectAllItemsExcept_equal_endpoints_witness :
  exists v,
    deselectAllItemsExcept id fullCollection
      (ExceptRange (Some (mkIdItem 2)) (Some (mkIdItem 2))) anchoredAt2
    = (mkWorld (fromFirst id fullCollection (mkIdItem 2)) (stacks anchoredAt2)
         (errorLog anchoredAt2), Normal v).
Proof.
  apply (deselectAllItemsExcept_equal_endpoints id fullCollection (mkIdItem 2)
           (mkIdItem 2) anchoredAt2).
  - reflexivity.
  - by_computation.
Defined.

Lemma deselectAllItemsExcept_undefined_endpoint_witness :
  exists sel',
    deselectAllItemsExcept id fullCollection (ExceptRange (Some (mkIdItem 3)) None)
      anchoredAt2
    = (mkWorld sel' (stacks anchoredAt2) (errorLog anchoredAt2), Throw TypeError)
    /\ (sel' = [] \/ exists i, head fullCollection = Some i /\ sel' = [i]
                               /\ id i = id (mkIdItem 3)).
Proof.
  apply (deselectAllItemsExcept_undefined_endpoint id fullCollection (mkIdItem 3)
           anchoredAt2).
  left. vm_compute. lia.
Defined.



Lemma additive_range_click_keeps_the_selection_witness :
  exists added,
    handleClick id (row 4) (click true true) (clickOn 1 false false emptyWorld)
    = (mkWorld (selectedItemsList (clickOn 1 false false emptyWorld) ++ added)
         (stacks (clickOn 1 false false emptyWorld))
         (errorLog (clickOn 1 false false emptyWorld)),
       Normal (markClickHandled (click true true)))
    /\ (forall x, x ∈ added -> x ∈ visibleItems (row 4))
    /\ (id (smItem (row 4)) ∈ trackByValues id (visibleItems (row 4)) ->
        id (smItem (row 4))
        ∈ trackByValues id
            (selectedItemsList (clickOn 1 false false emptyWorld) ++ added)).
Proof.
  apply (additive_range_click_keeps_the_selection id (row 4) (click true true)
           (clickOn 1 false false emptyWorld)).
  vm_compute. reflexivity.
Defined.

Lemma shift_click_replaces_selection_by_range_witness :
  handleClick id (row 4) (click false true) anchoredAt2
  = (mkWorld (mkIdItem 2 :: [mkIdItem 3] ++ [mkIdItem 4]) (stacks anchoredAt2)
       (errorLog anchoredAt2),
     Normal (markClickHandled (click false true))).
Proof.
  apply (shift_click_replaces_selection_by_range id (row 4) (click false true)
           anchoredAt2 [mkIdItem 1] (mkIdItem 2) [mkIdItem 3] (mkIdItem 4) []
           (mkIdItem 2)).
  - vm_compute. reflexivity.
  - vm_compute. reflexivity.
  - reflexivity.
  - reflexivity.
  - by_computation.
  - vm_compute. reflexivity.
  - left. split; reflexivity.
Defined.

Lemma multi_mode_toggle_changes_only_the_clicked_item_witness :
  exists w',
    handleClick id (row 2) (click true false) anchoredAt2
    = (w', Normal (markClickHandled (click true false)))
    /\ isSelected id (smItem (row 2)) w'
       = (w', Normal (negb (bool_decide
            (id (smItem (row 2)) ∈ trackByValues id (selectedItemsList anchoredAt2)))))
    /\ (forall k, k <> id (smItem (row 2)) ->
          k ∈ trackByValues id (selectedItemsList w')
          <-> k ∈ trackByValues id (selectedItemsList anchoredAt2))
    /\ errorLog w' = errorLog anchoredAt2.
Proof.
  apply (multi_mode_toggle_changes_only_the_clicked_item id (row 2)
           (click true false) anchoredAt2).
  - vm_compute. reflexivity.
  - vm_compute. reflexivity.
  - vm_compute. reflexivity.
  - by_computation.
Defined.

Lemma additive_mode_is_ctrl_always_witness :
  (handleClick id (rowIn "multi-additive" 3) (click false false) anchoredAt2).1
  = (handleClick id (rowIn "multi-additive" 3)
       (withModifiers true (metaKey (click false false))
          (shiftKey (click false false)) (click false false)) anchoredAt2).1.
Proof.
  apply (additive_mode_is_ctrl_always id (rowIn "multi-additive" 3)
           (click false false) anchoredAt2).
  vm_compute. reflexivity.
Defined.

Lemma single_mode_shift_is_ctrl_witness :
  (handleClick id (rowIn "single" 3) (click false true) anchoredAt2).1
  = (handleClick id (rowIn "single" 3)
       (withModifiers true (metaKey (click false true)) false (click false true))
       anchoredAt2).1.
Proof.
  apply (single_mode_shift_is_ctrl id (rowIn "single" 3) (click false true)
           anchoredAt2).
  - vm_compute. reflexivity.
  - reflexivity.
Defined.

Lemma label_click_is_left_to_its_input_witness :
  handleClick id (checkboxRow "cb-3" 3) (labelClick "cb-3") anchoredAt2
  = (anchoredAt2, Normal (markClickHandled (labelClick "cb-3"))).
Proof.
  apply (label_click_is_left_to_its_input id (checkboxRow "cb-3" 3)
           (labelClick "cb-3") anchoredAt2).
  - reflexivity.
  - reflexivity.
  - reflexivity.
  - left. exists "cb-3"%string. split; [reflexivity|]. split; [discriminate|].
    left. reflexivity.
Defined.

Lemma watcher_reconciles_the_selection_witness :
  exists w',
    selectedAttributeWatcher id (rowIn "single" 3) (Some true) None anchoredAt2
    = (w', Normal tt)
    /\ isSelected id (smItem (rowIn "single" 3)) w' = (w', Normal (truthy (Some true)))
    /\ stacks w' = stacks anchoredAt2
    /\ (isMultiMode (rowIn "single" 3) = true ->
        forall k, k <> id (smItem (rowIn "single" 3)) ->
          k ∈ trackByValues id (selectedItemsList w')
          <-> k ∈ trackByValues id (selectedItemsList anchoredAt2)).
Proof.
  apply (watcher_reconciles_the_selection id (rowIn "single" 3) (Some true) None
           anchoredAt2).
  - discriminate.
  - by_computation.
Defined.

Lemma sibling_rows_share_the_stack_id_witness :
  let first := resolveClickStackId true "id-1" (mkStackIdAttrs None None) in
  let second :=
    resolveClickStackId true "id-2" (mkStackIdAttrs None (parentStackId first.2)) in
  second.1 = first.1
  /\ parentStackId second.2 = parentStackId first.2
  /\ elementStackId first.2 = first.1
  /\ elementStackId second.2 = first.1
  /\ resolveClickStackId true "id-3" first.2 = first.
Proof.
  apply (sibling_rows_share_the_stack_id "id-1" "id-2" "id-3" None None None).
  - reflexivity.
  - reflexivity.
  - right. discriminate.
Defined.
